(** * Token-bucket traffic shaper: the components and their properties

    A shallow embedding of the shaping pipeline of the simulator:
    [TokenBucket.h], [Packet.h], [PacketQueue.h], [Flow.h] and the per-flow
    part of [StatisticsCollector.h].

    Conventions.
    - [uint64_t], [size_t] and [uint32_t] values are integers of [Z]; every
      operation that can leave the range is followed by [wrap64], as unsigned
      arithmetic does in C++.
    - A [time_point] of [std::chrono::high_resolution_clock] is its tick
      count, in nanoseconds; the clock is read by the caller and passed in as
      [now].
    - A [double] is a binary64 [float].
    - A mutex-protected method is one atomic state transition. *)

From Stdlib Require Import ZArith List Bool Lia Permutation Sorted.
From Stdlib Require Import Floats.
Import ListNotations.

Open Scope Z_scope.

(** ** Fixed-width arithmetic *)

Definition two64 : Z := 2 ^ 64.
Definition two32 : Z := 2 ^ 32.

Definition wrap64 (z : Z) : Z := z mod two64.

Definition u64 (z : Z) : Prop := 0 <= z < two64.
Definition u32 (z : Z) : Prop := 0 <= z < two32.

Definition wrap32 (z : Z) : Z := z mod two32.

(** Clock readings that never go back: from [t0] through [ts] to [T]. *)
Fixpoint nondecreasing (t0 : Z) (ts : list Z) (T : Z) : Prop :=
  match ts with
  | [] => t0 <= T
  | t1 :: rest => t0 <= t1 /\ nondecreasing t1 rest T
  end.

(** Division of unsigned integers; a zero divisor is undefined behaviour. *)
Definition udiv (a b : Z) : option Z :=
  if b =? 0 then None else Some (a / b).

(** ** Conversions between integers and [double] *)

Definition of_u63 (z : Z) : float := PrimFloat.of_uint63 (Uint63.of_Z z).

(** [static_cast<double>] of a [uint64_t], rounding to nearest even. Above
    [2^63] the value is halved with its lowest bit kept as a sticky bit,
    converted, and doubled. *)
Definition of_u64 (z : Z) : float :=
  if z <? 2 ^ 63 then of_u63 z
  else PrimFloat.mul (of_u63 (Z.lor (Z.shiftr z 1) (Z.land z 1))) 2%float.

(** [static_cast<double>] of a signed 64-bit count above [-2^63]. *)
Definition of_i64 (z : Z) : float :=
  if 0 <=? z then of_u63 z else PrimFloat.opp (of_u63 (- z)).

(** [static_cast<uint64_t>] of a [double]: the value truncated toward zero;
    undefined ([None]) when the truncated value is not a [uint64_t]. *)
Definition to_u64 (f : float) : option Z :=
  match Prim2SF f with
  | S754_zero _ => Some 0
  | S754_finite s m e =>
      let v := if 0 <=? e then Z.pos m * 2 ^ e else Z.pos m / 2 ^ (- e) in
      if s then (if v =? 0 then Some 0 else None)
      else if v <? two64 then Some v else None
  | _ => None
  end.

(** ** std::chrono *)

Module Chrono.

(** [duration_cast<microseconds>] of a nanosecond duration: integer
    division that truncates toward zero. *)
Definition duration_cast_us (d : Z) : Z := Z.quot d 1000.

End Chrono.

(** ** TokenBucket.h *)

Module TokenBucket.

Record t : Type := mk {
  rate_ : Z;        (* uint64_t, bytes per second *)
  bucketSize_ : Z;  (* uint64_t *)
  tokens_ : Z;      (* uint64_t *)
  lastUpdate_ : Z   (* time_point *)
}.

(** The constructor; [now] is the clock reading it takes. *)
Definition TokenBucket (rate bucketSize now : Z) : t :=
  {| rate_ := rate; bucketSize_ := bucketSize;
     tokens_ := bucketSize; lastUpdate_ := now |}.

(** [elapsed] is a signed 64-bit count; multiplying it with the unsigned
    [rate_] converts it to [uint64_t] and the product wraps. *)
Definition tokensToAdd (now : Z) (tb : t) : Z :=
  let elapsed := Chrono.duration_cast_us (now - lastUpdate_ tb) in
  wrap64 (rate_ tb * wrap64 elapsed) / 1000000.

Definition refill (now : Z) (tb : t) : t :=
  let add := tokensToAdd now tb in
  if 0 <? add then
    {| rate_ := rate_ tb; bucketSize_ := bucketSize_ tb;
       tokens_ := Z.min (wrap64 (tokens_ tb + add)) (bucketSize_ tb);
       lastUpdate_ := now |}
  else tb.

Definition consume (now : Z) (tokens : Z) (tb : t) : bool * t :=
  let tb := refill now tb in
  if tokens <=? tokens_ tb then
    (true,
     {| rate_ := rate_ tb; bucketSize_ := bucketSize_ tb;
        tokens_ := wrap64 (tokens_ tb - tokens);
        lastUpdate_ := lastUpdate_ tb |})
  else (false, tb).

Definition getTokens (now : Z) (tb : t) : Z * t :=
  let tb := refill now tb in (tokens_ tb, tb).

Definition getRate (tb : t) : Z := rate_ tb.
Definition getBucketSize (tb : t) : Z := bucketSize_ tb.

(** The fields hold 64-bit values. *)
Definition wf (tb : t) : Prop :=
  u64 (rate_ tb) /\ u64 (bucketSize_ tb) /\ u64 (tokens_ tb).

(** The refill of section 4.1 of the specification, over the integers:
    [add = floor (rate * dt_us / 10^6)], and only when [add > 0] the bucket
    takes [min (tokens + add) capacity] and [last_refill] moves to [now]. *)
Definition spec_add (now : Z) (tb : t) : Z :=
  rate_ tb * Chrono.duration_cast_us (now - lastUpdate_ tb) / 1000000.

Definition spec_refill (now : Z) (tb : t) : t :=
  let add := spec_add now tb in
  if 0 <? add then
    {| rate_ := rate_ tb; bucketSize_ := bucketSize_ tb;
       tokens_ := Z.min (tokens_ tb + add) (bucketSize_ tb);
       lastUpdate_ := now |}
  else tb.

(** The calls a client can make, each with the clock reading it sees. *)
Inductive call : Type :=
| Consume (now : Z) (tokens : Z)
| GetTokens (now : Z).

Definition step (c : call) (tb : t) : t :=
  match c with
  | Consume now n => snd (consume now n tb)
  | GetTokens now => snd (getTokens now tb)
  end.

Definition run (cs : list call) (tb : t) : t :=
  fold_left (fun s c => step c s) cs tb.

(** The largest value [tokensToAdd] can take: [(2^64 - 1) / 10^6]. *)
Definition max_add : Z := (two64 - 1) / 1000000.

(** [consume] takes a [uint32_t]. *)
Definition valid_call (c : call) : Prop :=
  match c with
  | Consume _ n => u32 n
  | GetTokens _ => True
  end.

(** The shaper's use of the bucket: one [consume] per packet, each at its own
    time, stopping at the first refusal. *)
Fixpoint consume_all (reqs : list (Z * Z)) (tb : t) : bool * t :=
  match reqs with
  | [] => (true, tb)
  | (now, n) :: rest =>
      let (ok, tb') := consume now n tb in
      if ok then consume_all rest tb' else (false, tb')
  end.

Definition total_size (reqs : list (Z * Z)) : Z :=
  fold_right (fun r acc => snd r + acc) 0 reqs.

Definition call_time (c : call) : Z :=
  match c with
  | Consume now _ => now
  | GetTokens now => now
  end.

(** The bytes a sequence of calls is granted: the sizes of the [consume]
    calls that return true. *)
Fixpoint granted (cs : list call) (tb : t) : Z :=
  match cs with
  | [] => 0
  | c :: rest =>
      match c with
      | Consume now n => if fst (consume now n tb) then n else 0
      | GetTokens _ => 0
      end + granted rest (step c tb)
  end.

(** What the bucket can still hand out up to time [T]: the tokens at hand
    and the refill over the time since the last one. *)
Definition budget (tb : t) (T : Z) : Z :=
  tokens_ tb
  + rate_ tb * Chrono.duration_cast_us (T - lastUpdate_ tb) / 1000000.

End TokenBucket.

(** ** Packet.h *)

Module Packet.

Inductive PacketPriority : Type := LOW | MEDIUM | HIGH | CRITICAL.

(** The enumerators' values; [<] and [!=] on the enum compare these. *)
Definition priority_value (p : PacketPriority) : Z :=
  match p with LOW => 0 | MEDIUM => 1 | HIGH => 2 | CRITICAL => 3 end.

Record t : Type := mk {
  flowId_ : Z;            (* uint32_t *)
  size_ : Z;              (* uint32_t, bytes *)
  priority_ : PacketPriority;
  creationTime_ : Z;      (* time_point *)
  transmissionTime_ : Z;  (* time_point; 0 is TimePoint{} *)
  dropped_ : bool
}.

Definition Packet (flowId size : Z) (priority : PacketPriority) (now : Z) : t :=
  {| flowId_ := flowId; size_ := size; priority_ := priority;
     creationTime_ := now; transmissionTime_ := 0; dropped_ := false |}.

Definition getFlowId (p : t) : Z := flowId_ p.
Definition getSize (p : t) : Z := size_ p.
Definition getPriority (p : t) : PacketPriority := priority_ p.
Definition getCreationTime (p : t) : Z := creationTime_ p.
Definition getTransmissionTime (p : t) : Z := transmissionTime_ p.
Definition isDropped (p : t) : bool := dropped_ p.

Definition setTransmissionTime (time : Z) (p : t) : t :=
  {| flowId_ := flowId_ p; size_ := size_ p; priority_ := priority_ p;
     creationTime_ := creationTime_ p; transmissionTime_ := time;
     dropped_ := dropped_ p |}.

Definition markDropped (p : t) : t :=
  {| flowId_ := flowId_ p; size_ := size_ p; priority_ := priority_ p;
     creationTime_ := creationTime_ p;
     transmissionTime_ := transmissionTime_ p; dropped_ := true |}.

End Packet.

(** ** PacketQueue.h *)

Module PacketQueue.

Import Packet.

(** [PacketComparator a b] is "[a] is served after [b]". *)
Definition PacketComparator (a b : Packet.t) : bool :=
  if negb (priority_value (getPriority a) =? priority_value (getPriority b))
  then priority_value (getPriority a) <? priority_value (getPriority b)
  else getCreationTime a >? getCreationTime b.

(** [std::priority_queue] is modelled by its contract. The container holds
    the packets in the order they were pushed; [top] is a packet that the
    comparator puts after no other, and [pop] removes it.  Which of several
    packets that the comparator does not separate is the top is left open
    by the standard; here it is the one pushed first. *)
Section PriorityQueue.

Variable A : Type.
Variable comp : A -> A -> bool.

Definition push (x : A) (l : list A) : list A := l ++ [x].

Fixpoint top_pop (l : list A) : option (A * list A) :=
  match l with
  | [] => None
  | x :: r =>
      match top_pop r with
      | None => Some (x, [])
      | Some (m, rest) => if comp x m then Some (m, x :: rest) else Some (x, r)
      end
  end.

Definition top (l : list A) : option A := option_map fst (top_pop l).
Definition pop (l : list A) : list A :=
  match top_pop l with Some (_, rest) => rest | None => [] end.
Definition empty (l : list A) : bool :=
  match l with [] => true | _ :: _ => false end.

(** What the standard promises of [top]. *)
Definition is_top (l : list A) (m : A) : Prop :=
  In m l /\ forall x, In x l -> comp m x = false.

End PriorityQueue.

Arguments push {A}.
Arguments top_pop {A}.
Arguments top {A}.
Arguments pop {A}.
Arguments empty {A}.
Arguments is_top {A}.

Record t : Type := mk {
  queue_ : list Packet.t;
  maxSize_ : Z;       (* size_t *)
  currentSize_ : Z;   (* size_t *)
  totalDropped_ : Z;  (* size_t *)
  shutdown_ : bool
}.

Definition PacketQueue (maxSize : Z) : t :=
  {| queue_ := []; maxSize_ := maxSize; currentSize_ := 0;
     totalDropped_ := 0; shutdown_ := false |}.

Definition with_queue (q : t) (l : list Packet.t) (n : Z) : t :=
  {| queue_ := l; maxSize_ := maxSize_ q; currentSize_ := n;
     totalDropped_ := totalDropped_ q; shutdown_ := shutdown_ q |}.

Definition with_dropped (q : t) (n : Z) : t :=
  {| queue_ := queue_ q; maxSize_ := maxSize_ q;
     currentSize_ := currentSize_ q;
     totalDropped_ := n; shutdown_ := shutdown_ q |}.

Definition enqueue (packet : Packet.t) (q : t) : bool * t :=
  if maxSize_ q <=? currentSize_ q then
    (false, with_dropped q (wrap64 (totalDropped_ q + 1)))
  else
    (true, with_queue q (push packet (queue_ q)) (wrap64 (currentSize_ q + 1))).

(** The result of a call of the blocking [dequeue]: the caller stays in
    [cv_.wait], or the call returns a packet or [nullptr]. *)
Inductive outcome : Type :=
| Waiting
| Returned (p : option Packet.t).

(** The predicate of [cv_.wait]. *)
Definition wait_pred (q : t) : bool := negb (empty (queue_ q)) || shutdown_ q.

(** [top], [pop] and the decrement of the size: both dequeues end with
    these three statements, and reach them only when the queue is not empty
    ([top] of an empty queue is undefined). *)
Definition take (q : t) : option Packet.t * t :=
  match top PacketComparator (queue_ q) with
  | Some packet =>
      (Some packet,
       with_queue q (pop PacketComparator (queue_ q))
         (wrap64 (currentSize_ q - 1)))
  | None => (None, q)
  end.

Definition dequeue (q : t) : outcome * t :=
  if negb (wait_pred q) then (Waiting, q)
  else if shutdown_ q && empty (queue_ q) then (Returned None, q)
  else let (p, q') := take q in (Returned p, q').

Definition tryDequeue (q : t) : option Packet.t * t :=
  if empty (queue_ q) then (None, q) else take q.

Definition size (q : t) : Z := currentSize_ q.
Definition getTotalDropped (q : t) : Z := totalDropped_ q.

Definition shutdown (q : t) : t :=
  {| queue_ := queue_ q; maxSize_ := maxSize_ q;
     currentSize_ := currentSize_ q; totalDropped_ := totalDropped_ q;
     shutdown_ := true |}.

(** The operations of the producers, the consumer and the controller, in
    the order their critical sections are entered. *)
Inductive op : Type :=
| Enqueue (p : Packet.t)
| Dequeue
| TryDequeue
| Shutdown.

Definition step (o : op) (q : t) : t :=
  match o with
  | Enqueue p => snd (enqueue p q)
  | Dequeue => snd (dequeue q)
  | TryDequeue => snd (tryDequeue q)
  | Shutdown => shutdown q
  end.

Definition run (os : list op) (q : t) : t :=
  fold_left (fun s o => step o s) os q.

(** The packets a consumer receives when it dequeues until the queue is
    empty; [fuel] bounds the number of calls. *)
Fixpoint drain (fuel : nat) (q : t) : list Packet.t :=
  match fuel with
  | O => []
  | S n =>
      match tryDequeue q with
      | (Some p, q') => p :: drain n q'
      | (None, _) => []
      end
  end.

(** The size counter agrees with the container and stays within the bound. *)
Definition inv (q : t) : Prop :=
  currentSize_ q = Z.of_nat (length (queue_ q)) /\
  currentSize_ q <= maxSize_ q /\
  u64 (maxSize_ q).

(** The order of service: higher priority first, and within a priority the
    earlier creation time first. *)
Definition outranks_or_ties (a b : Packet.t) : Prop :=
  priority_value (priority_ b) < priority_value (priority_ a) \/
  (priority_value (priority_ b) = priority_value (priority_ a) /\
   creationTime_ a <= creationTime_ b).

(** What one operation does with packets: the packet it accepts, refuses or
    hands to the consumer. *)
Definition offered_by (o : op) (q : t) : list Packet.t :=
  match o with
  | Enqueue p => [p]
  | _ => []
  end.

Definition accepted_by (o : op) (q : t) : list Packet.t :=
  match o with
  | Enqueue p => if fst (enqueue p q) then [p] else []
  | _ => []
  end.

Definition rejected_by (o : op) (q : t) : list Packet.t :=
  match o with
  | Enqueue p => if fst (enqueue p q) then [] else [p]
  | _ => []
  end.

Definition delivered_by (o : op) (q : t) : list Packet.t :=
  match o with
  | Dequeue =>
      match fst (dequeue q) with
      | Returned (Some p) => [p]
      | _ => []
      end
  | TryDequeue =>
      match fst (tryDequeue q) with
      | Some p => [p]
      | None => []
      end
  | _ => []
  end.

(** The packets of one kind over a sequence of operations, in order. *)
Fixpoint collect (f : op -> t -> list Packet.t) (os : list op) (q : t)
  : list Packet.t :=
  match os with
  | [] => []
  | o :: rest => f o q ++ collect f rest (step o q)
  end.

(** [n] calls of the blocking [dequeue], one after the other. *)
Fixpoint dequeue_n (n : nat) (q : t) : list outcome * t :=
  match n with
  | O => ([], q)
  | S k =>
      let (r, q') := dequeue q in
      let (rs, q'') := dequeue_n k q' in
      (r :: rs, q'')
  end.

(** *** The condition variable *)
















End PacketQueue.

(** ** Flow.h *)

Module Flow.

Import Packet.

Inductive FlowType : Type := CONSTANT_RATE | BURSTY | POISSON.

Record t : Type := mk {
  flowId_ : Z;            (* uint32_t *)
  type_ : FlowType;
  targetRate_ : Z;        (* uint64_t, bytes per second *)
  priority_ : PacketPriority;
  active_ : bool;
  packetsSent_ : Z;       (* atomic uint64_t *)
  packetsDropped_ : Z;    (* atomic uint64_t *)
  bytesTransmitted_ : Z;  (* atomic uint64_t *)
  totalDelay_ : float     (* atomic double, milliseconds *)
}.

(** The constructor stores its arguments as they are. *)
Definition Flow (flowId : Z) (type : FlowType) (targetRate : Z)
  (priority : PacketPriority) : t :=
  {| flowId_ := flowId; type_ := type; targetRate_ := targetRate;
     priority_ := priority; active_ := true;
     packetsSent_ := 0; packetsDropped_ := 0; bytesTransmitted_ := 0;
     totalDelay_ := 0%float |}.

Definition getFlowId (f : t) : Z := flowId_ f.
Definition getType (f : t) : FlowType := type_ f.
Definition getTargetRate (f : t) : Z := targetRate_ f.
Definition getPriority (f : t) : PacketPriority := priority_ f.
Definition isActive (f : t) : bool := active_ f.

Definition with_counters (f : t) (sent dropped bytes : Z) (delay : float) : t :=
  {| flowId_ := flowId_ f; type_ := type_ f; targetRate_ := targetRate_ f;
     priority_ := priority_ f; active_ := active_ f;
     packetsSent_ := sent; packetsDropped_ := dropped;
     bytesTransmitted_ := bytes; totalDelay_ := delay |}.

Definition setActive (active : bool) (f : t) : t :=
  {| flowId_ := flowId_ f; type_ := type_ f; targetRate_ := targetRate_ f;
     priority_ := priority_ f; active_ := active;
     packetsSent_ := packetsSent_ f; packetsDropped_ := packetsDropped_ f;
     bytesTransmitted_ := bytesTransmitted_ f; totalDelay_ := totalDelay_ f |}.

(** [packetSize] is the value drawn from [sizeDist] and [now] the clock
    reading of the packet's constructor. *)
Definition generatePacket (packetSize now : Z) (f : t) : Packet.t * t :=
  (Packet (flowId_ f) packetSize (priority_ f) now,
   with_counters f (wrap64 (packetsSent_ f + 1)) (packetsDropped_ f)
     (bytesTransmitted_ f) (totalDelay_ f)).

(** The literal [0.3], a [double]. *)
Definition burst_threshold : float := 0x1.3333333333333p-2%float.

(** What a call of [getInterArrivalTime] does: it returns microseconds, or
    it divides by zero, or (Poisson) it converts a [double] that is not a
    [uint64_t]. *)
Inductive result : Type :=
| Micros (us : Z)
| DivisionByZero
| CastOutOfRange.

Definition of_udiv (r : option Z) : result :=
  match r with Some us => Micros us | None => DivisionByZero end.

(** [draw] is the value the branch takes from its distribution: the uniform
    sample of [0, 1) for a bursty flow, the exponential sample (seconds) for
    a Poisson flow. [avgPacketSize] is a [uint32_t]; its product with
    [1000000ULL] is a [uint64_t]. *)
Definition getInterArrivalTime (avgPacketSize : Z) (draw : float) (f : t)
  : result :=
  match type_ f with
  | CONSTANT_RATE =>
      of_udiv (udiv (wrap64 (avgPacketSize * 1000000)) (targetRate_ f))
  | BURSTY =>
      if PrimFloat.ltb draw burst_threshold then
        of_udiv (udiv (wrap64 (avgPacketSize * 1000000))
                      (wrap64 (targetRate_ f * 3)))
      else
        of_udiv (udiv (wrap64 (avgPacketSize * 1000000)) (targetRate_ f / 2))
  | POISSON =>
      match to_u64 (PrimFloat.mul draw 1000000%float) with
      | Some us => Micros us
      | None => CastOutOfRange
      end
  end.

(** The default argument of [getInterArrivalTime]. *)
Definition default_avgPacketSize : Z := 500.

(** The bursty gap of section 4.3 of the specification, over the integers:
    [avg_size * 10^6 / (3 R)] in a burst, [avg_size * 10^6 * 2 / R] when
    idle. *)
Definition spec_bursty_gap (avg_size R : Z) (burst : bool) : Z :=
  if burst then avg_size * 10 ^ 6 / (3 * R) else avg_size * 10 ^ 6 * 2 / R.

Definition recordDrop (f : t) : t :=
  with_counters f (packetsSent_ f) (wrap64 (packetsDropped_ f + 1))
    (bytesTransmitted_ f) (totalDelay_ f).

Definition recordTransmission (bytes : Z) (delay : float) (f : t) : t :=
  with_counters f (packetsSent_ f) (packetsDropped_ f)
    (wrap64 (bytesTransmitted_ f + bytes))
    (PrimFloat.add (totalDelay_ f) delay).

Definition getPacketsSent (f : t) : Z := packetsSent_ f.
Definition getPacketsDropped (f : t) : Z := packetsDropped_ f.
Definition getBytesTransmitted (f : t) : Z := bytesTransmitted_ f.

(** [packetsSent_ - packetsDropped_], an unsigned difference. *)
Definition transmitted (f : t) : Z :=
  wrap64 (packetsSent_ f - packetsDropped_ f).

(** The counters hold 64-bit values. *)
Definition wf (f : t) : Prop :=
  u64 (packetsSent_ f) /\ u64 (packetsDropped_ f) /\ u64 (bytesTransmitted_ f).

Definition getAverageDelay (f : t) : float :=
  if 0 <? transmitted f
  then PrimFloat.div (totalDelay_ f) (of_u64 (transmitted f))
  else 0%float.

End Flow.

(** ** StatisticsCollector.h: the per-flow part of a sample *)

Module StatisticsCollector.

Record FlowStats : Type := mkFlowStats {
  flowId : Z;
  packetsSent : Z;
  packetsDropped : Z;
  bytesTransmitted : Z;
  averageDelay : float;
  throughput : float;
  dropRate : float
}.

(** The body of the loop over [flows_] in [collectStats]; [elapsed] is the
    time since the start, in seconds. *)
Definition collectFlowStat (elapsed : float) (flow : Flow.t) : FlowStats :=
  let sent := Flow.getPacketsSent flow in
  let dropped := Flow.getPacketsDropped flow in
  let bytes := Flow.getBytesTransmitted flow in
  {| flowId := Flow.getFlowId flow;
     packetsSent := sent;
     packetsDropped := dropped;
     bytesTransmitted := bytes;
     averageDelay := Flow.getAverageDelay flow;
     throughput :=
       if PrimFloat.ltb 0%float elapsed
       then PrimFloat.div (of_u64 bytes) elapsed else 0%float;
     dropRate :=
       if 0 <? sent
       then PrimFloat.div (of_u64 dropped) (of_u64 sent) else 0%float |}.

Definition collectFlowStats (elapsed : float) (flows : list Flow.t)
  : list FlowStats :=
  map (collectFlowStat elapsed) flows.

Record SystemStats : Type := mkSystemStats {
  timestamp : float;
  queueOccupancy : Z;
  totalPacketsTransmitted : Z;
  totalBytesTransmitted : Z;
  aggregateThroughput : float;
  flowStats : list FlowStats
}.

(** The loop over [flows_] with its three accumulators: the entries pushed
    so far, [totalBytes] and [totalPackets]. *)
Definition accumulate (elapsed : float) (acc : list FlowStats * Z * Z)
  (flow : Flow.t) : list FlowStats * Z * Z :=
  let '(entries, totalBytes, totalPackets) := acc in
  let flowStat := collectFlowStat elapsed flow in
  (entries ++ [flowStat],
   wrap64 (totalBytes + bytesTransmitted flowStat),
   wrap64 (totalPackets
           + wrap64 (packetsSent flowStat - packetsDropped flowStat))).

(** One sample of [collectStats]: the body of its [while] loop up to the
    [push_back] on the history. *)
Definition sample (elapsed : float) (flows : list Flow.t) (queue : PacketQueue.t)
  : SystemStats :=
  let '(entries, totalBytes, totalPackets) :=
    fold_left (accumulate elapsed) flows ([], 0, 0) in
  {| timestamp := elapsed;
     queueOccupancy := PacketQueue.size queue;
     totalPacketsTransmitted := totalPackets;
     totalBytesTransmitted := totalBytes;
     aggregateThroughput :=
       if PrimFloat.ltb 0%float elapsed
       then PrimFloat.div (of_u64 totalBytes) elapsed else 0%float;
     flowStats := entries |}.

Definition sum_bytes (entries : list FlowStats) : Z :=
  fold_right (fun e acc => bytesTransmitted e + acc) 0 entries.

Definition sum_packets (entries : list FlowStats) : Z :=
  fold_right (fun e acc => (packetsSent e - packetsDropped e) + acc) 0 entries.

End StatisticsCollector.

(** ** TrafficGenerator.h: the producer loop *)

Module TrafficGenerator.

(** One turn of the loop of [generateTraffic], up to its sleep: a packet is
    generated, offered to the queue, and counted as dropped when refused.
    [packetSize] and [now] are the size drawn and the clock reading. *)
Definition iteration (packetSize now : Z) (flow : Flow.t) (queue : PacketQueue.t)
  : Flow.t * PacketQueue.t :=
  let (packet, flow) := Flow.generatePacket packetSize now flow in
  let (ok, queue) := PacketQueue.enqueue packet queue in
  (if ok then flow else Flow.recordDrop flow, queue).

(** A producer and the consumer on one queue: the producer's turns, and in
    between them the consumer's [tryDequeue] calls. *)
Inductive event : Type :=
| Generate (packetSize now : Z)
| Take.

Definition react (e : event) (s : Flow.t * PacketQueue.t)
  : Flow.t * PacketQueue.t :=
  match e with
  | Generate packetSize now => iteration packetSize now (fst s) (snd s)
  | Take => (fst s, snd (PacketQueue.tryDequeue (snd s)))
  end.

Definition simulate (es : list event) (s : Flow.t * PacketQueue.t)
  : Flow.t * PacketQueue.t :=
  fold_left (fun s e => react e s) es s.

Definition generated (es : list event) : Z :=
  Z.of_nat (length (filter (fun e => match e with Generate _ _ => true | Take => false end) es)).

(** What the producer's loop and the consumer keep between them: the
    flow's drops are the queue's, and what is buffered and what was dropped
    has been sent. *)
Definition accounted (f : Flow.t) (q : PacketQueue.t) : Prop :=
  Flow.wf f /\ PacketQueue.inv q /\
  Flow.packetsDropped_ f = PacketQueue.totalDropped_ q /\
  0 <= PacketQueue.currentSize_ q /\
  PacketQueue.currentSize_ q + Flow.packetsDropped_ f <= Flow.packetsSent_ f.

(** Several producers on one queue. The flows are the shared objects, named
    by their place; each producer thread makes the turns of its own flow,
    and the consumer takes packets in between. *)
Inductive shared_event : Type :=
| GenerateAt (idx : nat) (packetSize now : Z)
| TakeOne.

Fixpoint put (idx : nat) (flow : Flow.t) (store : list Flow.t) : list Flow.t :=
  match store, idx with
  | [], _ => []
  | _ :: rest, O => flow :: rest
  | x :: rest, S k => x :: put k flow rest
  end.

Definition react_shared (e : shared_event) (s : list Flow.t * PacketQueue.t)
  : list Flow.t * PacketQueue.t :=
  match e with
  | GenerateAt idx packetSize now =>
      match nth_error (fst s) idx with
      | Some flow =>
          let (flow', queue') := iteration packetSize now flow (snd s) in
          (put idx flow' (fst s), queue')
      | None => s
      end
  | TakeOne => (fst s, snd (PacketQueue.tryDequeue (snd s)))
  end.

Definition simulate_shared (es : list shared_event)
  (s : list Flow.t * PacketQueue.t) : list Flow.t * PacketQueue.t :=
  fold_left (fun s e => react_shared e s) es s.

Definition sum_sent (store : list Flow.t) : Z :=
  fold_right (fun f acc => Flow.packetsSent_ f + acc) 0 store.

Definition sum_dropped (store : list Flow.t) : Z :=
  fold_right (fun f acc => Flow.packetsDropped_ f + acc) 0 store.

(** What the producers and the queue keep between them. *)
Definition accounted_shared (store : list Flow.t) (q : PacketQueue.t) : Prop :=
  Forall Flow.wf store /\ PacketQueue.inv q /\
  sum_dropped store = PacketQueue.totalDropped_ q /\
  0 <= PacketQueue.currentSize_ q /\
  PacketQueue.currentSize_ q + sum_dropped store <= sum_sent store.

(** The generator itself: its flag, its flows, and its threads, each named
    by the place of the flow it serves. *)
Record t : Type := mk {
  running_ : bool;
  flows_ : list Flow.t;
  threads_ : list nat
}.

Definition TrafficGenerator : t :=
  {| running_ := false; flows_ := []; threads_ := [] |}.

Definition addFlow (flow : Flow.t) (g : t) : t :=
  {| running_ := running_ g; flows_ := flows_ g ++ [flow];
     threads_ := threads_ g |}.

Definition start (g : t) : t :=
  if running_ g then g
  else {| running_ := true; flows_ := flows_ g;
          threads_ := threads_ g ++ seq 0 (length (flows_ g)) |}.

(** [stop] clears the flag, marks every flow inactive, joins the threads
    and clears [threads_]. *)
Definition stop (g : t) : t :=
  if negb (running_ g) then g
  else {| running_ := false;
          flows_ := map (Flow.setActive false) (flows_ g);
          threads_ := [] |}.

(** The condition of the loop of [generateTraffic]. *)
Definition keeps_going (g : t) (flow : Flow.t) : bool :=
  running_ g && Flow.isActive flow.

End TrafficGenerator.

(** ** TrafficShaper.h: the consumer loop *)

Module TrafficShaper.

(** The shaper's own fields. [flows_] is the [unordered_map] from flow ids
    to the shared [Flow] objects; an object is named by its place in the
    store of the flows. *)
Record t : Type := mk {
  linkCapacity_ : Z;            (* uint64_t, bits per second *)
  flows_ : Z -> option nat;
  packetsTransmitted_ : Z;      (* atomic uint64_t *)
  bytesTransmitted_ : Z         (* atomic uint64_t *)
}.

Definition TrafficShaper (linkCapacity : Z) : t :=
  {| linkCapacity_ := linkCapacity; flows_ := fun _ => None;
     packetsTransmitted_ := 0; bytesTransmitted_ := 0 |}.

(** The shaper together with the objects it shares with the producers and
    the collector: the flows, the queue and the bucket. *)
Record world : Type := mkWorld {
  flows : list Flow.t;
  queue : PacketQueue.t;
  bucket : TokenBucket.t;
  shaper : t
}.

(** [flows_[flow->getFlowId()] = flow], for the flow object at [addr]. *)
Definition addFlow (addr : nat) (w : world) : world :=
  match nth_error (flows w) addr with
  | Some flow =>
      {| flows := flows w; queue := queue w; bucket := bucket w;
         shaper :=
           {| linkCapacity_ := linkCapacity_ (shaper w);
              flows_ := fun id =>
                if id =? Flow.getFlowId flow then Some addr
                else flows_ (shaper w) id;
              packetsTransmitted_ := packetsTransmitted_ (shaper w);
              bytesTransmitted_ := bytesTransmitted_ (shaper w) |} |}
  | None => w
  end.

(** [(packet->getSize() * 8 * 1000000ULL) / linkCapacity_]: the product
    with 8 is a 32-bit one, the product with [1000000ULL] a 64-bit one. *)
Definition transmissionTimeMicros (size linkCapacity : Z) : option Z :=
  udiv (wrap64 (wrap32 (size * 8) * 1000000)) linkCapacity.

(** [duration<double, std::milli>] of a nanosecond duration. *)
Definition duration_ms (d : Z) : float :=
  PrimFloat.div (of_i64 d) 1000000%float.

(** The wait for tokens, [while (running_ && !consume(size)) sleep]. Each
    poll is the value read from [running_] and the clock reading of the
    [consume] that follows when it is true. *)
Inductive awaited : Type :=
| Granted     (* a [consume] returned true *)
| Cancelled   (* [running_] was read false *)
| Polling.    (* the polls given are used up and the loop goes on *)

Fixpoint await (polls : list (bool * Z)) (size : Z) (tb : TokenBucket.t)
  : awaited * TokenBucket.t :=
  match polls with
  | [] => (Polling, tb)
  | (running, now) :: rest =>
      if running then
        let (ok, tb') := TokenBucket.consume now size tb in
        if ok then (Granted, tb') else await rest size tb'
      else (Cancelled, tb)
  end.

(** What one pass through the body of [while (running_)] takes from
    outside: the polls of its wait, the value of [running_] read after the
    wait, and the clock reading of the stamp. *)
Record pass_input : Type := mkInput {
  polls : list (bool * Z);
  running_after : bool;
  tx : Z
}.

Inductive pass_result : Type :=
| Idle                                         (* the queue was empty *)
| Starved (p : Packet.t)                       (* still waiting for tokens *)
| Discarded (p : Packet.t)                     (* [break]: stop was requested *)
| Undefined (p : Packet.t)                     (* division by [linkCapacity_ = 0] *)
| Transmitted (p : Packet.t) (micros : Z).

Definition with_queue_bucket (w : world) (q : PacketQueue.t) (tb : TokenBucket.t)
  : world :=
  {| flows := flows w; queue := q; bucket := tb; shaper := shaper w |}.

(** [it->second->recordTransmission(size, delay)] on the object at [addr]. *)
Fixpoint update_flow (addr : nat) (f : Flow.t -> Flow.t) (store : list Flow.t)
  : list Flow.t :=
  match store, addr with
  | [], _ => []
  | x :: rest, O => f x :: rest
  | x :: rest, S k => x :: update_flow k f rest
  end.

Definition pass (i : pass_input) (w : world) : pass_result * world :=
  match PacketQueue.tryDequeue (queue w) with
  | (None, q) => (Idle, with_queue_bucket w q (bucket w))
  | (Some packet, q) =>
      let size := Packet.getSize packet in
      let (a, tb) := await (polls i) size (bucket w) in
      let w1 := with_queue_bucket w q tb in
      match a with
      | Polling => (Starved packet, w1)
      | Granted | Cancelled =>
          if negb (running_after i) then (Discarded packet, w1)
          else
            match transmissionTimeMicros size (linkCapacity_ (shaper w)) with
            | None => (Undefined packet, w1)
            | Some micros =>
                let packet := Packet.setTransmissionTime (tx i) packet in
                let delay :=
                  duration_ms (Packet.getTransmissionTime packet
                               - Packet.getCreationTime packet) in
                (Transmitted packet micros,
                 {| flows :=
                      match flows_ (shaper w) (Packet.getFlowId packet) with
                      | Some addr =>
                          update_flow addr
                            (Flow.recordTransmission size delay) (flows w)
                      | None => flows w
                      end;
                    queue := q;
                    bucket := tb;
                    shaper :=
                      {| linkCapacity_ := linkCapacity_ (shaper w);
                         flows_ := flows_ (shaper w);
                         packetsTransmitted_ :=
                           wrap64 (packetsTransmitted_ (shaper w) + 1);
                         bytesTransmitted_ :=
                           wrap64 (bytesTransmitted_ (shaper w) + size) |} |})
            end
      end
  end.

(** What happens around the shaper: its own passes, and the arrivals the
    producers put into the queue in between. *)
Inductive event : Type :=
| Pass (i : pass_input)
| Arrival (p : Packet.t).

Definition react (e : event) (w : world) : world :=
  match e with
  | Pass i => snd (pass i w)
  | Arrival p =>
      {| flows := flows w; queue := snd (PacketQueue.enqueue p (queue w));
         bucket := bucket w; shaper := shaper w |}
  end.

Definition simulate (es : list event) (w : world) : world :=
  fold_left (fun w e => react e w) es w.

(** The clock readings of the [consume] calls of the events. *)
Definition poll_times (es : list event) : list Z :=
  flat_map (fun e =>
    match e with
    | Pass i => map snd (polls i)
    | Arrival _ => []
    end) es.

(** [running_] goes from true to false and not back while the loop runs: a
    pass whose wait read false reads false after the wait. *)
Definition stop_is_final (i : pass_input) : Prop :=
  (exists now, In (false, now) (polls i)) -> running_after i = false.

Definition event_ok (e : event) : Prop :=
  match e with
  | Pass i => stop_is_final i
  | Arrival p => u32 (Packet.size_ p)
  end.

(** The bytes the flows have recorded, together. *)
Definition sum_flow_bytes (store : list Flow.t) : Z :=
  fold_right (fun f acc => Flow.bytesTransmitted_ f + acc) 0 store.

(** The packet's flow id has an entry in [flows_], and the entry names a
    flow object. *)
Definition registered (w : world) (p : Packet.t) : Prop :=
  exists addr,
    flows_ (shaper w) (Packet.flowId_ p) = Some addr /\
    (addr < length (flows w))%nat.

(** The packets the events bring. *)
Definition arrivals (es : list event) : list Packet.t :=
  flat_map (fun e =>
    match e with
    | Pass _ => []
    | Arrival p => [p]
    end) es.

End TrafficShaper.

(** * Properties *)

(** ** Fixed-width arithmetic *)

Lemma two64_eq : two64 = 18446744073709551616.
Proof. reflexivity. Qed.

Lemma two32_eq : two32 = 4294967296.
Proof. reflexivity. Qed.

Lemma wrap64_range (z : Z) : u64 (wrap64 z).
Proof. unfold u64, wrap64. apply Z.mod_pos_bound. rewrite two64_eq. lia. Qed.

Lemma wrap64_small (z : Z) : u64 z -> wrap64 z = z.
Proof. unfold u64, wrap64. intros H. apply Z.mod_small. exact H. Qed.

Lemma u32_u64 (z : Z) : u32 z -> u64 z.
Proof. unfold u32, u64. rewrite two64_eq, two32_eq. lia. Qed.

Lemma udiv_some (a b : Z) : b <> 0 -> udiv a b = Some (a / b).
Proof. intros H. unfold udiv. destruct (Z.eqb_spec b 0); [contradiction | reflexivity]. Qed.

Lemma udiv_none (a b : Z) : udiv a b = None <-> b = 0.
Proof.
  unfold udiv. destruct (Z.eqb_spec b 0); split; intros H; try congruence; reflexivity.
Qed.

Lemma duration_cast_us_nonneg (d : Z) : 0 <= d -> 0 <= Chrono.duration_cast_us d.
Proof. intros H. unfold Chrono.duration_cast_us. apply Z.quot_pos; lia. Qed.

(** ** The token bucket *)

Module TokenBucketFacts.

Import TokenBucket.

Lemma max_add_eq : max_add = 18446744073709.
Proof. reflexivity. Qed.

(** Whatever the clock and the rate, a refill adds between 0 and [max_add]
    tokens. *)
Lemma tokensToAdd_range (now : Z) (tb : t) : 0 <= tokensToAdd now tb <= max_add.
Proof.
  unfold tokensToAdd.
  pose proof (wrap64_range
    (rate_ tb * wrap64 (Chrono.duration_cast_us (now - lastUpdate_ tb)))) as [Hlo Hhi].
  split.
  - apply Z.div_pos; lia.
  - unfold max_add. apply Z.div_le_mono; lia.
Qed.

(** Without wrap-around the amount is the one of the specification. *)
Lemma tokensToAdd_exact (now : Z) (tb : t) :
  lastUpdate_ tb <= now ->
  0 <= rate_ tb ->
  rate_ tb * Chrono.duration_cast_us (now - lastUpdate_ tb) < two64 ->
  tokensToAdd now tb = spec_add now tb.
Proof.
  intros Hnow Hrate Hprod. unfold tokensToAdd, spec_add.
  set (e := Chrono.duration_cast_us (now - lastUpdate_ tb)) in *.
  assert (He : 0 <= e) by (apply duration_cast_us_nonneg; lia).
  destruct (Z.eq_dec (rate_ tb) 0) as [H0 | H0].
  - rewrite H0. rewrite !Z.mul_0_l. reflexivity.
  - assert (Hle : e <= rate_ tb * e) by nia.
    rewrite (wrap64_small e) by (unfold u64; lia).
    rewrite wrap64_small by (unfold u64; nia).
    reflexivity.
Qed.

Lemma refill_rate (now : Z) (tb : t) : rate_ (refill now tb) = rate_ tb.
Proof. unfold refill. destruct (0 <? tokensToAdd now tb); reflexivity. Qed.

Lemma refill_bucketSize (now : Z) (tb : t) :
  bucketSize_ (refill now tb) = bucketSize_ tb.
Proof. unfold refill. destruct (0 <? tokensToAdd now tb); reflexivity. Qed.

Lemma refill_wf (now : Z) (tb : t) : wf tb -> wf (refill now tb).
Proof.
  intros (Hr & Hb & Ht). unfold refill.
  destruct (0 <? tokensToAdd now tb); [| unfold wf; auto].
  unfold wf; cbn [rate_ bucketSize_ tokens_].
  pose proof (wrap64_range (tokens_ tb + tokensToAdd now tb)) as Hw.
  unfold u64 in *. repeat split; try lia.
Qed.

(** A refill never leaves more than the capacity in the bucket. *)
Lemma refill_le_capacity (now : Z) (tb : t) :
  tokens_ tb <= bucketSize_ tb ->
  tokens_ (refill now tb) <= bucketSize_ tb.
Proof.
  intros H. unfold refill.
  destruct (0 <? tokensToAdd now tb); cbn [tokens_]; lia.
Qed.

(** A refill whose sum does not wrap never takes tokens away. *)
Lemma refill_mono (now : Z) (tb : t) :
  0 <= tokens_ tb <= bucketSize_ tb ->
  tokens_ tb + tokensToAdd now tb < two64 ->
  tokens_ tb <= tokens_ (refill now tb).
Proof.
  intros Hcap Hsum. pose proof (tokensToAdd_range now tb) as Hadd.
  unfold refill. destruct (0 <? tokensToAdd now tb); cbn [tokens_]; [| lia].
  rewrite wrap64_small by (unfold u64; lia). lia.
Qed.

Lemma consume_unfold (now n : Z) (tb : t) :
  wf tb -> 0 <= n ->
  consume now n tb =
    let r := refill now tb in
    if n <=? tokens_ r
    then (true, mk (rate_ r) (bucketSize_ r) (tokens_ r - n) (lastUpdate_ r))
    else (false, r).
Proof.
  intros Hwf Hn. unfold consume. cbv zeta.
  destruct (Z.leb_spec n (tokens_ (refill now tb))) as [Hle | Hlt]; [| reflexivity].
  destruct (refill_wf now tb Hwf) as (_ & _ & Ht).
  rewrite wrap64_small by (unfold u64 in *; lia). reflexivity.
Qed.

Lemma step_bucketSize (c : call) (tb : t) : bucketSize_ (step c tb) = bucketSize_ tb.
Proof.
  destruct c as [now n | now]; cbn [step].
  - unfold consume. destruct (n <=? tokens_ (refill now tb)); cbn [snd bucketSize_];
      apply refill_bucketSize.
  - apply refill_bucketSize.
Qed.

(** Well-formedness and [tokens <= capacity] are kept by every call. *)
Lemma step_invariant (c : call) (tb : t) :
  valid_call c -> wf tb -> tokens_ tb <= bucketSize_ tb ->
  wf (step c tb) /\ tokens_ (step c tb) <= bucketSize_ (step c tb).
Proof.
  intros Hc Hwf Hcap. rewrite step_bucketSize.
  destruct c as [now n | now]; cbn [step valid_call] in *.
  - destruct Hc as [Hn0 Hn1].
    rewrite consume_unfold by assumption. cbv zeta.
    pose proof (refill_wf now tb Hwf) as (Hr & Hb & Ht).
    pose proof (refill_le_capacity now tb Hcap) as Hle.
    destruct (Z.leb_spec n (tokens_ (refill now tb))); cbn [snd].
    + unfold wf, u64 in *; cbn [rate_ bucketSize_ tokens_]. repeat split; lia.
    + unfold wf; auto.
  - cbn [getTokens snd]. split; [apply refill_wf; assumption |].
    apply refill_le_capacity; assumption.
Qed.

Lemma run_invariant (cs : list call) (tb : t) :
  Forall valid_call cs -> wf tb -> tokens_ tb <= bucketSize_ tb ->
  wf (run cs tb) /\ tokens_ (run cs tb) <= bucketSize_ tb.
Proof.
  revert tb. induction cs as [| c cs IH]; intros tb Hcs Hwf Hcap.
  - split; assumption.
  - inversion Hcs as [| ? ? Hc Hcs']; subst.
    destruct (step_invariant c tb Hc Hwf Hcap) as [Hwf' Hcap'].
    change (run (c :: cs) tb) with (run cs (step c tb)).
    rewrite <- (step_bucketSize c tb). apply IH; assumption.
Qed.

(** The bucket only fills between two [consume] calls, whatever the
    observation times, when [capacity + max_add] is a 64-bit value. *)
Lemma observations_mono (nows : list Z) (tb : t) :
  wf tb -> tokens_ tb <= bucketSize_ tb ->
  bucketSize_ tb + max_add < two64 ->
  tokens_ tb <= tokens_ (run (map GetTokens nows) tb).
Proof.
  revert tb. induction nows as [| now nows IH]; intros tb Hwf Hcap Hbig.
  - cbn. lia.
  - change (run (map GetTokens (now :: nows)) tb)
      with (run (map GetTokens nows) (refill now tb)).
    pose proof (tokensToAdd_range now tb) as Hadd.
    destruct Hwf as (Hr & Hb & Ht).
    assert (Hstep : tokens_ tb <= tokens_ (refill now tb)).
    { apply refill_mono; unfold u64 in *; lia. }
    etransitivity; [exact Hstep |].
    apply IH.
    + apply refill_wf. unfold wf; auto.
    + rewrite refill_bucketSize. apply refill_le_capacity. exact Hcap.
    + rewrite refill_bucketSize. exact Hbig.
Qed.

(** C1, in the range of 64-bit arithmetic. For a bucket with
    [tokens <= capacity], a clock that has not gone back, a product
    [rate * elapsed_us] below [2^64] and a sum [tokens + add] below [2^64]:
    the refill done on entry to [consume] and [getTokens] is the one of the
    specification, [add = floor (rate * elapsed_us / 10^6)] tokens capped at
    the capacity; [lastUpdate_] moves to [now] exactly when [add > 0]; the
    refill takes no token away and leaves at most the capacity; and after
    any sequence of calls the bucket holds at most its capacity. *)
Theorem refill_meets_spec_in_range (now : Z) (tb : t) :
  wf tb ->
  tokens_ tb <= bucketSize_ tb ->
  lastUpdate_ tb <= now ->
  rate_ tb * Chrono.duration_cast_us (now - lastUpdate_ tb) < two64 ->
  tokens_ tb + spec_add now tb < two64 ->
  refill now tb = spec_refill now tb /\
  getTokens now tb = (tokens_ (spec_refill now tb), spec_refill now tb) /\
  (forall n, fst (consume now n tb) = (n <=? tokens_ (spec_refill now tb))) /\
  tokens_ (refill now tb) =
    (if 0 <? spec_add now tb
     then Z.min (tokens_ tb + spec_add now tb) (bucketSize_ tb)
     else tokens_ tb) /\
  lastUpdate_ (refill now tb) =
    (if 0 <? spec_add now tb then now else lastUpdate_ tb) /\
  tokens_ tb <= tokens_ (refill now tb) <= bucketSize_ tb /\
  (forall cs, Forall valid_call cs -> tokens_ (run cs tb) <= bucketSize_ tb).
Proof.
  intros Hwf Hcap Hnow Hprod Hsum.
  destruct Hwf as (Hr & Hb & Ht).
  assert (Hadd : tokensToAdd now tb = spec_add now tb).
  { apply tokensToAdd_exact; unfold u64 in *; lia. }
  pose proof (tokensToAdd_range now tb) as Hrange. rewrite Hadd in Hrange.
  assert (Heq : refill now tb = spec_refill now tb).
  { unfold refill, spec_refill. rewrite Hadd.
    destruct (0 <? spec_add now tb); [| reflexivity].
    rewrite wrap64_small by (unfold u64 in *; lia). reflexivity. }
  split; [exact Heq |].
  split; [unfold getTokens; rewrite Heq; reflexivity |].
  split.
  { intros n. unfold consume. rewrite Heq.
    destruct (n <=? tokens_ (spec_refill now tb)); reflexivity. }
  split.
  { rewrite Heq. unfold spec_refill. destruct (0 <? spec_add now tb); reflexivity. }
  split.
  { rewrite Heq. unfold spec_refill. destruct (0 <? spec_add now tb); reflexivity. }
  split.
  { split.
    - apply refill_mono; [unfold u64 in *; lia | rewrite Hadd; exact Hsum].
    - apply refill_le_capacity. exact Hcap. }
  intros cs Hcs. apply run_invariant; [exact Hcs | unfold wf; auto | exact Hcap].
Qed.

(** An instance: 800 KiB/s, capacity 100 KiB, 1000 tokens left, 2.5 ms
    after the last refill. *)
Lemma refill_meets_spec_in_range_witness :
  let tb := mk 819200 102400 1000 0 in
  tokens_ (refill 2500000 tb) = 3048 /\ lastUpdate_ (refill 2500000 tb) = 2500000.
Proof.
  intros tb.
  assert (Hwf : wf tb) by (unfold wf, u64; rewrite two64_eq; cbn; lia).
  assert (Hcap : tokens_ tb <= bucketSize_ tb) by (cbn; lia).
  assert (Hnow : lastUpdate_ tb <= 2500000) by (cbn; lia).
  assert (Hprod : rate_ tb * Chrono.duration_cast_us (2500000 - lastUpdate_ tb) < two64)
    by (vm_compute; reflexivity).
  assert (Hsum : tokens_ tb + spec_add 2500000 tb < two64)
    by (vm_compute; reflexivity).
  destruct (refill_meets_spec_in_range 2500000 tb Hwf Hcap Hnow Hprod Hsum)
    as (_ & _ & _ & Htok & Hlast & _).
  split; [exact Htok | exact Hlast].
Defined.

(** C1 as stated fails when [rate * elapsed_us] passes [2^64]: a bucket of
    10^10 bytes per second and capacity 100 KiB, empty, observed
    1844674408 microseconds after its last refill, receives 6290 tokens,
    where the specification's refill fills it to its capacity. *)
Lemma refill_wraps_counterexample :
  let tb := mk (10 ^ 10) 102400 0 0 in
  let now := 1844674408000 in
  wf tb /\ tokens_ tb <= bucketSize_ tb /\ lastUpdate_ tb <= now /\
  tokens_ (refill now tb) = 6290 /\
  spec_add now tb = 18446744080000 /\
  tokens_ (spec_refill now tb) = 102400 /\
  refill now tb <> spec_refill now tb.
Proof.
  cbv zeta. unfold wf, u64. rewrite two64_eq.
  repeat split; try (vm_compute; congruence).
Qed.

(** C2. [consume n] refills first. If the refilled count is at least [n] it
    returns true and the count is the refilled count less [n]; otherwise it
    returns false and the bucket is the refilled bucket, nothing deducted.
    Rate, capacity and refill time are those of the refilled bucket in both
    cases. *)
Theorem consume_refills_then_deducts (now n : Z) (tb : t) :
  wf tb -> u32 n ->
  let r := refill now tb in
  (n <= tokens_ r ->
     consume now n tb =
       (true, mk (rate_ r) (bucketSize_ r) (tokens_ r - n) (lastUpdate_ r))) /\
  (tokens_ r < n -> consume now n tb = (false, r)) /\
  (fst (consume now n tb) = true <-> n <= tokens_ r).
Proof.
  intros Hwf [Hn0 Hn1] r. rewrite consume_unfold by assumption. cbv zeta.
  fold r. destruct (Z.leb_spec n (tokens_ r)) as [Hle | Hlt].
  - repeat split; intros; try reflexivity; try lia.
  - repeat split; intros; try reflexivity; try lia. cbn in *. discriminate.
Qed.

(** An instance: 1500 bytes taken from 3048 tokens, then 1500 more refused
    at 1548. *)
Lemma consume_refills_then_deducts_witness :
  let tb := mk 819200 102400 1000 0 in
  consume 2500000 1500 tb = (true, mk 819200 102400 1548 2500000) /\
  consume 2500000 1600 (mk 819200 102400 1548 2500000)
    = (false, mk 819200 102400 1548 2500000).
Proof.
  intros tb. split.
  - assert (Hwf : wf tb) by (unfold wf, u64; rewrite two64_eq; cbn; lia).
    assert (Hn : u32 1500) by (unfold u32; rewrite two32_eq; lia).
    destruct (consume_refills_then_deducts 2500000 1500 tb Hwf Hn) as (Hok & _ & _).
    rewrite Hok by (vm_compute; congruence). reflexivity.
  - reflexivity.
Defined.

Lemma total_size_cons (now n : Z) (reqs : list (Z * Z)) :
  total_size ((now, n) :: reqs) = n + total_size reqs.
Proof. reflexivity. Qed.

Lemma total_size_nonneg (reqs : list (Z * Z)) :
  Forall (fun r => u32 (snd r)) reqs -> 0 <= total_size reqs.
Proof.
  induction 1 as [| [a b] l [Hb _] _ IHl].
  - cbn. lia.
  - rewrite total_size_cons. cbn [snd] in Hb. lia.
Qed.

(** A full-enough bucket serves a whole burst: requests whose sizes add up
    to at most the tokens at hand are all granted, at whatever times they
    come. *)
Lemma consume_all_granted (reqs : list (Z * Z)) (tb : t) :
  wf tb -> tokens_ tb <= bucketSize_ tb ->
  bucketSize_ tb + max_add < two64 ->
  Forall (fun r => u32 (snd r)) reqs ->
  total_size reqs <= tokens_ tb ->
  fst (consume_all reqs tb) = true.
Proof.
  revert tb. induction reqs as [| [now n] reqs IH]; intros tb Hwf Hcap Hbig Hreqs Htot.
  - reflexivity.
  - inversion Hreqs as [| ? ? Hn Hreqs']; subst. cbn [snd] in Hn.
    pose proof (total_size_nonneg reqs Hreqs') as Hpos.
    rewrite total_size_cons in Htot.
    cbn [consume_all]. destruct Hn as [Hn0 Hn1].
    rewrite consume_unfold by assumption. cbv zeta.
    pose proof (tokensToAdd_range now tb) as Hadd.
    pose proof (refill_wf now tb Hwf) as (Hr' & Hb' & Ht').
    pose proof (refill_le_capacity now tb Hcap) as Hle.
    destruct Hwf as (Hr & Hb & Ht).
    assert (Hmono : tokens_ tb <= tokens_ (refill now tb)).
    { apply refill_mono; unfold u64 in *; lia. }
    destruct (Z.leb_spec n (tokens_ (refill now tb))) as [Hok | Hno]; [| lia].
    apply IH; cbn [rate_ bucketSize_ tokens_]; rewrite ?refill_bucketSize.
    + unfold wf, u64 in *; cbn [rate_ bucketSize_ tokens_]. repeat split; lia.
    + lia.
    + exact Hbig.
    + exact Hreqs'.
    + lia.
Qed.

(** C10, for capacities with [capacity + max_add < 2^64]. A bucket just
    constructed holds [capacity] tokens; its first [getTokens], at whatever
    time, returns the capacity; a first [consume] of up to [capacity] bytes
    is granted; and so is any burst of requests that add up to at most the
    capacity. *)
Theorem new_bucket_is_full (rate bucketSize t0 : Z) :
  u64 rate -> u64 bucketSize ->
  bucketSize + max_add < two64 ->
  let tb := TokenBucket rate bucketSize t0 in
  tokens_ tb = bucketSize /\
  (forall now, fst (getTokens now tb) = bucketSize) /\
  (forall now n, u32 n -> n <= bucketSize -> fst (consume now n tb) = true) /\
  (forall reqs, Forall (fun r => u32 (snd r)) reqs ->
                total_size reqs <= bucketSize ->
                fst (consume_all reqs tb) = true).
Proof.
  intros Hrate Hsize Hbig tb.
  assert (Hwf : wf tb) by (unfold wf, tb; cbn; auto).
  assert (Hfull : forall now, tokens_ (refill now tb) = bucketSize).
  { intros now. pose proof (tokensToAdd_range now tb) as Hadd.
    pose proof (refill_le_capacity now tb) as Hle.
    pose proof (refill_mono now tb) as Hmono.
    unfold tb in *; cbn [TokenBucket tokens_ bucketSize_] in *.
    unfold u64 in *. lia. }
  split; [reflexivity |].
  split; [intros now; cbn [getTokens fst]; apply Hfull |].
  split.
  - intros now n [Hn0 Hn1] Hle. rewrite consume_unfold by assumption. cbv zeta.
    rewrite Hfull. destruct (Z.leb_spec n bucketSize); [reflexivity | lia].
  - intros reqs Hreqs Htot. apply consume_all_granted; try assumption;
      unfold tb; cbn [TokenBucket tokens_ bucketSize_]; lia.
Qed.

(** An instance: the bucket of the first scenario, 800 KiB/s and 100 KiB. *)
Lemma new_bucket_is_full_witness :
  fst (getTokens 7000 (TokenBucket 819200 102400 0)) = 102400 /\
  fst (consume 7000 1500 (TokenBucket 819200 102400 0)) = true.
Proof.
  assert (Hrate : u64 819200) by (unfold u64; rewrite two64_eq; lia).
  assert (Hsize : u64 102400) by (unfold u64; rewrite two64_eq; lia).
  assert (Hbig : 102400 + max_add < two64)
    by (rewrite max_add_eq, two64_eq; lia).
  destruct (new_bucket_is_full 819200 102400 0 Hrate Hsize Hbig)
    as (_ & Hget & Hcons & _).
  split.
  - apply Hget.
  - apply Hcons; [unfold u32; rewrite two32_eq; lia | lia].
Defined.

(** C10 as stated fails at the largest capacity: a bucket constructed with
    capacity [2^64 - 1] and rate 10^6 starts with [2^64 - 1] tokens, and one
    microsecond later [tokens_ + 1] wraps to 0: [getTokens] returns 0 and a
    [consume] of one byte is refused. *)
Lemma new_bucket_wraps_counterexample :
  let tb := TokenBucket 1000000 (two64 - 1) 0 in
  wf tb /\
  tokens_ tb = two64 - 1 /\
  fst (getTokens 1000 tb) = 0 /\
  fst (getTokens 1000 tb) <> bucketSize_ tb /\
  fst (consume 1000 1 tb) = false.
Proof.
  cbv zeta. unfold wf, u64. rewrite two64_eq.
  repeat split; try (vm_compute; congruence).
Qed.

End TokenBucketFacts.

(** ** The packet queue *)

Module PacketQueueFacts.

Import Packet PacketQueue.

(** *** The priority queue and its comparator *)

Section TopPop.

Context {A : Type} (comp : A -> A -> bool).

Lemma top_pop_none (l : list A) : top_pop comp l = None <-> l = [].
Proof.
  destruct l as [| x r]; cbn; [tauto |].
  split; [| discriminate].
  destruct (top_pop comp r) as [[m rest] |]; [destruct (comp x m) |]; discriminate.
Qed.

Lemma top_pop_some (l : list A) :
  l <> [] -> exists m rest, top_pop comp l = Some (m, rest).
Proof.
  intros Hne. destruct (top_pop comp l) as [[m rest] |] eqn:E.
  - eauto.
  - apply top_pop_none in E. contradiction.
Qed.

(** [pop] removes one packet, the top, and keeps the others. *)
Lemma top_pop_perm (l : list A) (m : A) (rest : list A) :
  top_pop comp l = Some (m, rest) -> Permutation l (m :: rest).
Proof.
  revert m rest. induction l as [| x r IH]; intros m rest H; cbn in H.
  - discriminate.
  - destruct (top_pop comp r) as [[m' rest'] |] eqn:E.
    + destruct (comp x m'); inversion H; subst; clear H.
      * rewrite (IH _ _ eq_refl). apply perm_swap.
      * reflexivity.
    + apply top_pop_none in E. subst r. inversion H; subst. reflexivity.
Qed.

Lemma top_pop_length (l : list A) (m : A) (rest : list A) :
  top_pop comp l = Some (m, rest) -> length l = S (length rest).
Proof.
  intros H. apply top_pop_perm in H. apply Permutation_length in H. exact H.
Qed.

(** A comparator that is a strict weak ordering. *)
Hypothesis comp_irrefl : forall a, comp a a = false.
Hypothesis comp_asym : forall a b, comp a b = true -> comp b a = false.
Hypothesis comp_negtrans :
  forall a b c, comp a b = false -> comp b c = false -> comp a c = false.

(** The packet taken meets the contract of [top]. *)
Lemma top_pop_is_top (l : list A) (m : A) (rest : list A) :
  top_pop comp l = Some (m, rest) -> is_top comp l m.
Proof.
  revert m rest. induction l as [| x r IH]; intros m rest H; cbn in H.
  - discriminate.
  - destruct (top_pop comp r) as [[m' rest'] |] eqn:E.
    + destruct (IH _ _ eq_refl) as [Hin Hmax].
      destruct (comp x m') eqn:C; inversion H; subst; clear H.
      * split; [right; exact Hin |].
        intros y [-> | Hy]; [apply comp_asym; exact C | apply Hmax; exact Hy].
      * split; [left; reflexivity |].
        intros y [-> | Hy]; [apply comp_irrefl |].
        eapply comp_negtrans; [exact C | apply Hmax; exact Hy].
    + apply top_pop_none in E. subst r. inversion H; subst.
      split; [left; reflexivity |].
      intros y [-> | []]. apply comp_irrefl.
Qed.

End TopPop.

(** The comparator, read on priorities and creation times. *)
Lemma PacketComparator_true (a b : Packet.t) :
  PacketComparator a b = true <->
  priority_value (priority_ a) < priority_value (priority_ b) \/
  (priority_value (priority_ a) = priority_value (priority_ b) /\
   creationTime_ b < creationTime_ a).
Proof.
  unfold PacketComparator, getPriority, getCreationTime.
  destruct (Z.eqb_spec (priority_value (priority_ a)) (priority_value (priority_ b)));
    cbn [negb].
  - rewrite Z.gtb_ltb, Z.ltb_lt. lia.
  - rewrite Z.ltb_lt. lia.
Qed.

Lemma PacketComparator_false (a b : Packet.t) :
  PacketComparator a b = false <-> outranks_or_ties a b.
Proof.
  unfold outranks_or_ties.
  destruct (PacketComparator a b) eqn:E.
  - apply PacketComparator_true in E. split; [discriminate | lia].
  - split; [intros _ | reflexivity].
    destruct (Z.lt_total (priority_value (priority_ b)) (priority_value (priority_ a)))
      as [H | [H | H]]; [lia | | ].
    + right. split; [exact H |].
      destruct (Z.le_gt_cases (creationTime_ a) (creationTime_ b)) as [Hc | Hc];
        [exact Hc |].
      assert (PacketComparator a b = true) by (apply PacketComparator_true; lia).
      congruence.
    + assert (PacketComparator a b = true) by (apply PacketComparator_true; lia).
      congruence.
Qed.

Lemma PacketComparator_irrefl (a : Packet.t) : PacketComparator a a = false.
Proof. apply PacketComparator_false. unfold outranks_or_ties. lia. Qed.

Lemma PacketComparator_asym (a b : Packet.t) :
  PacketComparator a b = true -> PacketComparator b a = false.
Proof.
  rewrite PacketComparator_true, PacketComparator_false.
  unfold outranks_or_ties. lia.
Qed.

Lemma PacketComparator_negtrans (a b c : Packet.t) :
  PacketComparator a b = false -> PacketComparator b c = false ->
  PacketComparator a c = false.
Proof.
  rewrite !PacketComparator_false. unfold outranks_or_ties. lia.
Qed.

(** Whatever packet an implementation of [std::priority_queue] returns as
    the top, it has the highest priority in the queue and, within that
    priority, the earliest creation time. *)
Lemma is_top_outranks (l : list Packet.t) (m : Packet.t) :
  is_top PacketComparator l m ->
  In m l /\ forall x, In x l -> outranks_or_ties m x.
Proof.
  intros [Hin Hmax]. split; [exact Hin |].
  intros x Hx. apply PacketComparator_false. apply Hmax. exact Hx.
Qed.

Lemma top_pop_outranks (l : list Packet.t) (m : Packet.t) (rest : list Packet.t) :
  top_pop PacketComparator l = Some (m, rest) ->
  Permutation l (m :: rest) /\ forall x, In x l -> outranks_or_ties m x.
Proof.
  intros H. split; [apply top_pop_perm with PacketComparator; exact H |].
  apply is_top_outranks.
  apply top_pop_is_top with (rest := rest).
  - exact PacketComparator_irrefl.
  - exact PacketComparator_asym.
  - exact PacketComparator_negtrans.
  - exact H.
Qed.

Lemma outranks_or_ties_priority (a b : Packet.t) :
  outranks_or_ties a b <->
  priority_value (priority_ b) <= priority_value (priority_ a) /\
  (priority_value (priority_ b) = priority_value (priority_ a) ->
   creationTime_ a <= creationTime_ b).
Proof. unfold outranks_or_ties. lia. Qed.

(** *** The queue *)

Lemma empty_nil (l : list Packet.t) : empty l = true <-> l = [].
Proof. destruct l; cbn; split; congruence. Qed.

Lemma take_top_pop (q : t) :
  take q =
    match top_pop PacketComparator (queue_ q) with
    | Some (packet, rest) =>
        (Some packet, with_queue q rest (wrap64 (currentSize_ q - 1)))
    | None => (None, q)
    end.
Proof.
  unfold take, top, pop.
  destruct (top_pop PacketComparator (queue_ q)) as [[p rest] |]; reflexivity.
Qed.

Lemma take_nonempty (q : t) :
  queue_ q <> [] ->
  exists p rest,
    top_pop PacketComparator (queue_ q) = Some (p, rest) /\
    take q = (Some p, with_queue q rest (wrap64 (currentSize_ q - 1))).
Proof.
  intros Hne. destruct (top_pop_some PacketComparator _ Hne) as (p & rest & E).
  exists p, rest. split; [exact E |]. rewrite take_top_pop, E. reflexivity.
Qed.

Lemma tryDequeue_nonempty (q : t) : queue_ q <> [] -> tryDequeue q = take q.
Proof.
  intros Hne. unfold tryDequeue. destruct (queue_ q); [contradiction | reflexivity].
Qed.

Lemma dequeue_nonempty (q : t) :
  queue_ q <> [] -> dequeue q = (Returned (fst (take q)), snd (take q)).
Proof.
  intros Hne. unfold dequeue, wait_pred.
  destruct (queue_ q) eqn:E; [contradiction |]. cbn [empty negb orb].
  rewrite andb_false_r. destruct (take q). reflexivity.
Qed.

Lemma dequeue_empty (q : t) :
  queue_ q = [] ->
  dequeue q = (if shutdown_ q then Returned None else Waiting, q).
Proof.
  intros E. unfold dequeue, wait_pred. rewrite E. cbn [empty negb orb].
  destruct (shutdown_ q); reflexivity.
Qed.

Lemma enqueue_inv (p : Packet.t) (q : t) : inv q -> inv (snd (enqueue p q)).
Proof.
  intros (Hsize & Hle & Hmax). unfold enqueue.
  destruct (Z.leb_spec (maxSize_ q) (currentSize_ q)); cbn [snd].
  - unfold inv; cbn. auto.
  - unfold inv, push; cbn [with_queue queue_ currentSize_ maxSize_].
    rewrite length_app. cbn [length]. unfold u64 in *.
    rewrite wrap64_small by (unfold u64; lia). repeat split; lia.
Qed.

Lemma take_inv (q : t) : inv q -> inv (snd (take q)).
Proof.
  intros (Hsize & Hle & Hmax). rewrite take_top_pop.
  destruct (top_pop PacketComparator (queue_ q)) as [[p rest] |] eqn:E; cbn [snd].
  - apply top_pop_length in E.
    unfold inv; cbn [with_queue queue_ currentSize_ maxSize_]. unfold u64 in *.
    rewrite wrap64_small by (unfold u64; lia). repeat split; lia.
  - unfold inv; auto.
Qed.

Lemma step_inv (o : op) (q : t) : inv q -> inv (step o q).
Proof.
  intros H. destruct o as [p | | |]; cbn [step].
  - apply enqueue_inv; exact H.
  - unfold dequeue. destruct (negb (wait_pred q)); [exact H |].
    destruct (shutdown_ q && empty (queue_ q)); [exact H |].
    pose proof (take_inv q H) as Ht. destruct (take q). exact Ht.
  - unfold tryDequeue. destruct (empty (queue_ q)); [exact H | apply take_inv; exact H].
  - exact H.
Qed.

Lemma step_maxSize (o : op) (q : t) : maxSize_ (step o q) = maxSize_ q.
Proof.
  destruct o as [p | | |]; cbn [step].
  - unfold enqueue. destruct (maxSize_ q <=? currentSize_ q); reflexivity.
  - unfold dequeue. rewrite take_top_pop. destruct (negb (wait_pred q)); [reflexivity |].
    destruct (shutdown_ q && empty (queue_ q)); [reflexivity |].
    destruct (top_pop PacketComparator (queue_ q)) as [[? ?] |]; reflexivity.
  - unfold tryDequeue. rewrite take_top_pop. destruct (empty (queue_ q)); [reflexivity |].
    destruct (top_pop PacketComparator (queue_ q)) as [[? ?] |]; reflexivity.
  - reflexivity.
Qed.


Lemma run_cons (o : op) (os : list op) (q : t) :
  run (o :: os) q = run os (step o q).
Proof. reflexivity. Qed.

Lemma run_inv (os : list op) (q : t) :
  inv q -> inv (run os q) /\ maxSize_ (run os q) = maxSize_ q.
Proof.
  revert q. induction os as [| o os IH]; intros q H.
  - split; [exact H | reflexivity].
  - rewrite run_cons. destruct (IH (step o q) (step_inv o q H)) as [Hi Hm].
    split; [exact Hi | rewrite Hm; apply step_maxSize].
Qed.


(** [totalDropped_] grows by at most one per operation. *)
Lemma step_totalDropped (o : op) (q : t) :
  0 <= totalDropped_ q ->
  0 <= totalDropped_ (step o q) <= totalDropped_ q + 1.
Proof.
  intros H0. destruct o as [p | | |]; cbn [step].
  - unfold enqueue. destruct (maxSize_ q <=? currentSize_ q);
      cbn [snd with_dropped with_queue totalDropped_]; [| lia].
    pose proof (wrap64_range (totalDropped_ q + 1)) as [Hlo _].
    split; [exact Hlo |]. unfold wrap64. apply Z.mod_le; [lia |].
    rewrite two64_eq. lia.
  - unfold dequeue. rewrite take_top_pop. destruct (negb (wait_pred q)); [cbn; lia |].
    destruct (shutdown_ q && empty (queue_ q)); [cbn; lia |].
    destruct (top_pop PacketComparator (queue_ q)) as [[? ?] |]; cbn; lia.
  - unfold tryDequeue. rewrite take_top_pop. destruct (empty (queue_ q)); [cbn; lia |].
    destruct (top_pop PacketComparator (queue_ q)) as [[? ?] |]; cbn; lia.
  - cbn. lia.
Qed.

Lemma run_totalDropped (os : list op) (q : t) :
  0 <= totalDropped_ q ->
  0 <= totalDropped_ (run os q) <= totalDropped_ q + Z.of_nat (length os).
Proof.
  revert q. induction os as [| o os IH]; intros q H0.
  - cbn. lia.
  - rewrite run_cons. pose proof (step_totalDropped o q H0) as Hs.
    specialize (IH (step o q) (proj1 Hs)). cbn [length]. lia.
Qed.

Lemma new_queue_inv (maxSize : Z) : u64 maxSize -> inv (PacketQueue maxSize).
Proof. intros H. unfold inv; cbn. unfold u64 in *. repeat split; lia. Qed.

(** C3. After any sequence of operations on a queue constructed with bound
    [maxSize], the size is the number of buffered packets and is at most
    [maxSize]. An [enqueue] at [size = maxSize] returns false, adds one to
    [totalDropped_] (as [++] on a [size_t] does; the counter is at most the
    number of operations so far) and leaves the buffered packets, those at
    the head included, as they were; an [enqueue] at [size < maxSize]
    returns true and adds the packet. *)
Theorem queue_bounded_tail_drop (maxSize : Z) (os : list op) :
  u64 maxSize ->
  let q := run os (PacketQueue maxSize) in
  size q = Z.of_nat (length (queue_ q)) /\
  size q <= maxSize /\
  0 <= totalDropped_ q <= Z.of_nat (length os) /\
  (forall p, size q = maxSize ->
     enqueue p q = (false, with_dropped q (wrap64 (totalDropped_ q + 1))) /\
     (totalDropped_ q + 1 < two64 ->
      totalDropped_ (snd (enqueue p q)) = totalDropped_ q + 1) /\
     queue_ (snd (enqueue p q)) = queue_ q /\
     size (snd (enqueue p q)) = size q) /\
  (forall p, size q < maxSize ->
     enqueue p q = (true, with_queue q (queue_ q ++ [p]) (size q + 1)) /\
     totalDropped_ (snd (enqueue p q)) = totalDropped_ q).
Proof.
  intros Hmax q.
  destruct (run_inv os (PacketQueue maxSize) (new_queue_inv maxSize Hmax))
    as [(Hsize & Hle & Hu) Hm].
  fold q in Hsize, Hle, Hu, Hm. cbn [PacketQueue maxSize_] in Hm.
  unfold size. rewrite Hm in *.
  pose proof (run_totalDropped os (PacketQueue maxSize) (Z.le_refl 0)) as Hdrop.
  fold q in Hdrop. cbn [PacketQueue totalDropped_] in Hdrop.
  split; [exact Hsize |]. split; [exact Hle |]. split; [lia |]. split.
  - intros p Hfull. unfold enqueue. rewrite Hm, Hfull, Z.leb_refl.
    cbn [snd with_dropped totalDropped_ queue_ currentSize_].
    split; [reflexivity |]. split; [| split; [reflexivity | congruence]].
    intros Hroom. apply wrap64_small. unfold u64. lia.
  - intros p Hroom. unfold enqueue. rewrite Hm.
    destruct (Z.leb_spec maxSize (currentSize_ q)); [lia |].
    unfold push. rewrite wrap64_small by (unfold u64 in *; lia). auto.
Qed.

(** An instance: a queue of bound 2 after three arrivals holds the first
    two, has dropped one, and refuses a fourth. *)
Lemma queue_bounded_tail_drop_witness :
  let a := Packet 1 100 LOW 5 in
  let b := Packet 2 100 HIGH 9 in
  let c := Packet 3 100 CRITICAL 11 in
  let q := run [Enqueue a; Enqueue b; Enqueue c] (PacketQueue 2) in
  queue_ q = [a; b] /\ totalDropped_ q = 1 /\
  size q <= 2 /\ fst (enqueue c q) = false.
Proof.
  intros a b c q.
  assert (Hmax : u64 2) by (unfold u64; rewrite two64_eq; lia).
  destruct (queue_bounded_tail_drop 2 [Enqueue a; Enqueue b; Enqueue c] Hmax)
    as (_ & Hle & _ & Hfull & _).
  split; [reflexivity |]. split; [reflexivity |]. split; [exact Hle |].
  destruct (Hfull c eq_refl) as (Heq & _). fold q in Heq. rewrite Heq. reflexivity.
Defined.

(** Dequeuing until the queue is empty returns every buffered packet, each
    before all those it outranks or ties with. *)
Lemma drain_all (n : nat) (q : t) :
  n = length (queue_ q) ->
  Permutation (drain n q) (queue_ q) /\
  StronglySorted outranks_or_ties (drain n q).
Proof.
  revert q. induction n as [| n IH]; intros q Hn.
  - destruct (queue_ q); [| discriminate]. cbn. split; constructor.
  - assert (Hne : queue_ q <> []) by (intros E; rewrite E in Hn; discriminate).
    destruct (take_nonempty q Hne) as (p & rest & Htop & Htake).
    cbn [drain]. rewrite (tryDequeue_nonempty q Hne), Htake.
    destruct (top_pop_outranks _ _ _ Htop) as [Hperm Hmax].
    assert (Hlen : n = length (queue_ (with_queue q rest (wrap64 (currentSize_ q - 1))))).
    { cbn [with_queue queue_]. apply Permutation_length in Hperm.
      rewrite <- Hn in Hperm. cbn [length] in Hperm. congruence. }
    destruct (IH _ Hlen) as [IHperm IHsort]. cbn [with_queue queue_] in IHperm.
    split.
    + rewrite Hperm. constructor. exact IHperm.
    + constructor; [exact IHsort |].
      apply Forall_forall. intros x Hx. apply Hmax.
      apply Permutation_in with (p :: rest); [symmetry; exact Hperm |].
      right. apply Permutation_in with (1 := IHperm). exact Hx.
Qed.

(** C4. On a queue that is not empty, [tryDequeue] and [dequeue] return the
    same packet and leave the same queue: the packet was buffered, the
    others stay buffered, no buffered packet has a higher priority, and none
    of the same priority has an earlier creation time. Dequeuing until empty
    therefore serves the packets by priority descending, then creation time
    ascending. *)
Theorem dequeue_takes_highest_priority_oldest (q : t) :
  queue_ q <> [] ->
  (exists p q',
     tryDequeue q = (Some p, q') /\
     dequeue q = (Returned (Some p), q') /\
     Permutation (queue_ q) (p :: queue_ q') /\
     forall x, In x (queue_ q) ->
       priority_value (priority_ x) <= priority_value (priority_ p) /\
       (priority_value (priority_ x) = priority_value (priority_ p) ->
        creationTime_ p <= creationTime_ x)) /\
  Permutation (drain (length (queue_ q)) q) (queue_ q) /\
  StronglySorted outranks_or_ties (drain (length (queue_ q)) q).
Proof.
  intros Hne. split; [| apply drain_all; reflexivity].
  destruct (take_nonempty q Hne) as (p & rest & Htop & Htake).
  destruct (top_pop_outranks _ _ _ Htop) as [Hperm Hmax].
  exists p, (with_queue q rest (wrap64 (currentSize_ q - 1))).
  split; [rewrite tryDequeue_nonempty by exact Hne; exact Htake |].
  split; [rewrite dequeue_nonempty by exact Hne; rewrite Htake; reflexivity |].
  split; [exact Hperm |].
  intros x Hx. apply outranks_or_ties_priority. apply Hmax. exact Hx.
Qed.

(** An instance: of a low, two high and a medium packet, the high packet
    created first is served first, and the whole order is high (7), high
    (9), medium, low. *)
Lemma dequeue_takes_highest_priority_oldest_witness :
  let q := run [Enqueue (Packet 1 100 LOW 5); Enqueue (Packet 2 100 HIGH 9);
                Enqueue (Packet 3 100 HIGH 7); Enqueue (Packet 4 100 MEDIUM 1)]
               (PacketQueue 8) in
  fst (tryDequeue q) = Some (Packet 3 100 HIGH 7) /\
  map flowId_ (drain 4 q) = [3; 2; 4; 1] /\
  StronglySorted outranks_or_ties (drain (length (queue_ q)) q).
Proof.
  intros q.
  assert (Hne : queue_ q <> []) by (vm_compute; discriminate).
  destruct (dequeue_takes_highest_priority_oldest q Hne) as (_ & _ & Hsorted).
  split; [reflexivity |]. split; [reflexivity | exact Hsorted].
Defined.
















(** C9. [enqueue] never reads the shutdown flag: on a queue that has been
    shut down it returns what it returns on the same queue not shut down,
    and leaves the same queue but for the flag. In particular it returns
    true and adds the packet whenever the queue is not full. *)
Theorem enqueue_ignores_shutdown (p : Packet.t) (q : t) :
  enqueue p (shutdown q) = (fst (enqueue p q), shutdown (snd (enqueue p q))) /\
  fst (enqueue p (shutdown q)) = negb (maxSize_ q <=? currentSize_ q) /\
  queue_ (snd (enqueue p (shutdown q))) =
    (if maxSize_ q <=? currentSize_ q then queue_ q else queue_ q ++ [p]) /\
  shutdown_ (snd (enqueue p (shutdown q))) = true.
Proof.
  unfold enqueue. cbn [shutdown maxSize_ currentSize_ queue_ totalDropped_].
  destruct (maxSize_ q <=? currentSize_ q); cbn; auto.
Qed.

End PacketQueueFacts.

(** ** Flows and their statistics *)

Module FlowFacts.

Import Packet Flow.

Lemma wrap64_avg (avgPacketSize : Z) :
  u32 avgPacketSize -> wrap64 (avgPacketSize * 1000000) = avgPacketSize * 1000000.
Proof.
  intros [H0 H1]. apply wrap64_small. unfold u64.
  rewrite two32_eq in H1. rewrite two64_eq. lia.
Qed.

(** The calls of [getInterArrivalTime] that divide by zero: a constant-rate
    flow of rate 0, a bursty flow in a burst when [3 * rate] wraps to 0, and
    a bursty flow outside a burst when [rate / 2] is 0, that is at rate 0
    or 1. *)
Lemma getInterArrivalTime_DivisionByZero (avg : Z) (draw : float) (f : t) :
  getInterArrivalTime avg draw f = DivisionByZero <->
  match type_ f with
  | CONSTANT_RATE => targetRate_ f = 0
  | BURSTY =>
      if PrimFloat.ltb draw burst_threshold
      then wrap64 (targetRate_ f * 3) = 0
      else targetRate_ f / 2 = 0
  | POISSON => False
  end.
Proof.
  unfold getInterArrivalTime, of_udiv.
  destruct (type_ f).
  - rewrite <- (udiv_none (wrap64 (avg * 1000000)) (targetRate_ f)).
    destruct (udiv _ _); split; congruence.
  - destruct (PrimFloat.ltb draw burst_threshold).
    + rewrite <- (udiv_none (wrap64 (avg * 1000000)) (wrap64 (targetRate_ f * 3))).
      destruct (udiv _ _); split; congruence.
    + rewrite <- (udiv_none (wrap64 (avg * 1000000)) (targetRate_ f / 2)).
      destruct (udiv _ _); split; congruence.
  - destruct (to_u64 _); split; try discriminate; contradiction.
Qed.

(** C6: the code against the claim. The constructor checks nothing, and a
    bursty flow of target rate 1 byte per second, a rate that is not zero,
    divides by [1 / 2 = 0] in its idle case; so does every flow type but
    Poisson at the rate 0 that the constructor lets through. *)
Theorem getInterArrivalTime_divides_by_zero :
  targetRate_ (Flow 1 BURSTY 1 MEDIUM) = 1 /\
  getInterArrivalTime default_avgPacketSize 0.5 (Flow 1 BURSTY 1 MEDIUM)
    = DivisionByZero /\
  targetRate_ (Flow 2 CONSTANT_RATE 0 MEDIUM) = 0 /\
  (forall draw,
     getInterArrivalTime default_avgPacketSize draw (Flow 2 CONSTANT_RATE 0 MEDIUM)
       = DivisionByZero) /\
  (forall draw,
     getInterArrivalTime default_avgPacketSize draw (Flow 3 BURSTY 0 MEDIUM)
       = DivisionByZero).
Proof.
  split; [reflexivity |]. split; [vm_compute; reflexivity |].
  split; [reflexivity |]. split.
  - intros draw. apply getInterArrivalTime_DivisionByZero. reflexivity.
  - intros draw. apply getInterArrivalTime_DivisionByZero. cbn [Flow type_ targetRate_].
    destruct (PrimFloat.ltb draw burst_threshold); reflexivity.
Qed.

Lemma idle_gap_even (a R : Z) :
  0 < R -> Z.even R = true -> a / (R / 2) = a * 2 / R.
Proof.
  intros Hpos Hev. apply Z.even_spec in Hev. destruct Hev as [k ->].
  replace (2 * k / 2) with k by (rewrite Z.mul_comm, Z.div_mul; lia).
  rewrite (Z.mul_comm a 2). rewrite Z.div_mul_cancel_l; lia.
Qed.

(** C7, as the code computes it. For a bursty flow of target rate [R] with
    [2 <= R] and [3 R < 2^64], and an average packet size [avg] (500 by
    default): [getInterArrivalTime] returns [avg * 10^6 / (3 R)] when the
    uniform draw is below 0.3, and [avg * 10^6 / (R / 2)], with [R / 2]
    rounded down, otherwise; the latter is [avg * 10^6 * 2 / R] when [R] is
    even. *)
Theorem bursty_inter_arrival (avg : Z) (draw : float) (f : t) :
  type_ f = BURSTY ->
  u32 avg ->
  2 <= targetRate_ f ->
  3 * targetRate_ f < two64 ->
  let R := targetRate_ f in
  getInterArrivalTime avg draw f =
    (if PrimFloat.ltb draw burst_threshold
     then Micros (avg * 10 ^ 6 / (3 * R))
     else Micros (avg * 10 ^ 6 / (R / 2))) /\
  (Z.even R = true ->
   getInterArrivalTime avg draw f =
     Micros (spec_bursty_gap avg R (PrimFloat.ltb draw burst_threshold))).
Proof.
  intros Hty Havg HR H3 R.
  assert (Hcode : getInterArrivalTime avg draw f =
    (if PrimFloat.ltb draw burst_threshold
     then Micros (avg * 10 ^ 6 / (3 * R))
     else Micros (avg * 10 ^ 6 / (R / 2)))).
  { unfold getInterArrivalTime. rewrite Hty. rewrite (wrap64_avg avg Havg).
    fold R. change (10 ^ 6) with 1000000.
    destruct (PrimFloat.ltb draw burst_threshold).
    - rewrite wrap64_small by (unfold u64, R; lia).
      rewrite udiv_some by (unfold R; lia).
      rewrite (Z.mul_comm R 3). reflexivity.
    - assert (1 <= R / 2) by (apply Z.div_le_lower_bound; unfold R; lia).
      rewrite udiv_some by lia. reflexivity. }
  split; [exact Hcode |].
  intros Hev. rewrite Hcode. unfold spec_bursty_gap.
  destruct (PrimFloat.ltb draw burst_threshold); [reflexivity |].
  rewrite idle_gap_even; [reflexivity | unfold R; lia | exact Hev].
Qed.

(** An instance: the bursty flow of the third scenario, 400 KiB/s. *)
Lemma bursty_inter_arrival_witness :
  getInterArrivalTime 500 0.25 (Flow 1 BURSTY 409600 MEDIUM) = Micros 406 /\
  getInterArrivalTime 500 0.5 (Flow 1 BURSTY 409600 MEDIUM) = Micros 2441.
Proof.
  assert (Havg : u32 500) by (unfold u32; rewrite two32_eq; lia).
  assert (HR : 2 <= targetRate_ (Flow 1 BURSTY 409600 MEDIUM)) by (cbn; lia).
  assert (H3 : 3 * targetRate_ (Flow 1 BURSTY 409600 MEDIUM) < two64)
    by (rewrite two64_eq; cbn; lia).
  split.
  - destruct (bursty_inter_arrival 500 0.25 (Flow 1 BURSTY 409600 MEDIUM)
                eq_refl Havg HR H3) as [H _].
    rewrite H. reflexivity.
  - destruct (bursty_inter_arrival 500 0.5 (Flow 1 BURSTY 409600 MEDIUM)
                eq_refl Havg HR H3) as [H _].
    rewrite H. reflexivity.
Defined.

(** C7 as stated fails at odd rates: an idle bursty flow of 3 bytes per
    second waits [500 * 10^6 / (3 / 2) = 500000000] microseconds, not
    [500 * 10^6 * 2 / 3 = 333333333]. *)
Lemma bursty_idle_odd_rate_counterexample :
  PrimFloat.ltb 0.5 burst_threshold = false /\
  getInterArrivalTime 500 0.5 (Flow 1 BURSTY 3 MEDIUM) = Micros 500000000 /\
  spec_bursty_gap 500 3 false = 333333333 /\
  getInterArrivalTime 500 0.5 (Flow 1 BURSTY 3 MEDIUM)
    <> Micros (spec_bursty_gap 500 3 false).
Proof.
  repeat split; try (vm_compute; congruence).
Qed.

(** The unsigned difference is the difference of the counters as long as
    no more packets are dropped than sent. *)
Lemma transmitted_exact (f : t) :
  wf f -> packetsDropped_ f <= packetsSent_ f ->
  transmitted f = packetsSent_ f - packetsDropped_ f.
Proof.
  intros (Hs & Hd & _) Hle. unfold transmitted. apply wrap64_small.
  unfold u64 in *. lia.
Qed.

(** C8. The average delay a flow reports is 0 when
    [packetsSent_ - packetsDropped_] is 0 and otherwise [totalDelay_]
    divided by it, the division being that of [double]; the difference is
    the unsigned one, which is the difference of the counters whenever
    [packetsDropped_ <= packetsSent_]. The collector's sample carries that
    average, and its drop rate is 0 when [packetsSent] is 0 and otherwise
    [packetsDropped / packetsSent], again in [double]. *)
Theorem average_delay_and_drop_rate (elapsed : float) (f : t) :
  wf f ->
  getAverageDelay f =
    (if transmitted f =? 0 then 0%float
     else PrimFloat.div (totalDelay_ f) (of_u64 (transmitted f))) /\
  (packetsDropped_ f <= packetsSent_ f ->
   getAverageDelay f =
     (if packetsSent_ f - packetsDropped_ f =? 0 then 0%float
      else PrimFloat.div (totalDelay_ f)
             (of_u64 (packetsSent_ f - packetsDropped_ f)))) /\
  StatisticsCollector.averageDelay (StatisticsCollector.collectFlowStat elapsed f)
    = getAverageDelay f /\
  StatisticsCollector.dropRate (StatisticsCollector.collectFlowStat elapsed f) =
    (if packetsSent_ f =? 0 then 0%float
     else PrimFloat.div (of_u64 (packetsDropped_ f)) (of_u64 (packetsSent_ f))).
Proof.
  intros Hwf.
  assert (Havg : getAverageDelay f =
    (if transmitted f =? 0 then 0%float
     else PrimFloat.div (totalDelay_ f) (of_u64 (transmitted f)))).
  { unfold getAverageDelay.
    pose proof (wrap64_range (packetsSent_ f - packetsDropped_ f)) as [Hlo _].
    fold (transmitted f) in Hlo.
    destruct (Z.ltb_spec 0 (transmitted f)), (Z.eqb_spec (transmitted f) 0);
      try reflexivity; lia. }
  split; [exact Havg |]. split.
  - intros Hle. rewrite Havg, (transmitted_exact f Hwf Hle). reflexivity.
  - split; [reflexivity |].
    destruct Hwf as ([Hs0 _] & _ & _).
    cbn [StatisticsCollector.collectFlowStat StatisticsCollector.dropRate].
    unfold getPacketsSent, getPacketsDropped.
    destruct (Z.ltb_spec 0 (packetsSent_ f)), (Z.eqb_spec (packetsSent_ f) 0);
      try reflexivity; lia.
Qed.

(** An instance: 10 packets sent, 2 dropped, 20 ms of delay in total: 2.5 ms
    on average and a drop rate of 0.2; and a flow that has sent nothing. *)
Lemma average_delay_and_drop_rate_witness :
  let f := with_counters (Flow 1 CONSTANT_RATE 409600 MEDIUM) 10 2 4000 20 in
  getAverageDelay f = 2.5%float /\
  StatisticsCollector.dropRate (StatisticsCollector.collectFlowStat 2 f)
    = PrimFloat.div 2 10 /\
  getAverageDelay (Flow 1 CONSTANT_RATE 409600 MEDIUM) = 0%float.
Proof.
  intros f.
  assert (Hwf : wf f) by (unfold wf, u64; rewrite two64_eq; cbn; lia).
  destruct (average_delay_and_drop_rate 2 f Hwf) as (Havg & _ & _ & Hdrop).
  split; [rewrite Havg; reflexivity |].
  split; [rewrite Hdrop; reflexivity | reflexivity].
Defined.

(** The producer loop keeps [packetsDropped_ <= packetsSent_], whatever the
    other threads have done to the queue in between: a turn sends one packet
    and drops at most that one. *)
Lemma iteration_counters (packetSize now : Z) (f : t) (q : PacketQueue.t) :
  wf f -> packetsDropped_ f <= packetsSent_ f ->
  packetsSent_ f + 1 < two64 ->
  let f' := fst (TrafficGenerator.iteration packetSize now f q) in
  wf f' /\
  packetsSent_ f' = packetsSent_ f + 1 /\
  packetsDropped_ f <= packetsDropped_ f' <= packetsDropped_ f + 1 /\
  packetsDropped_ f' <= packetsSent_ f' /\
  (packetsDropped_ f' = packetsDropped_ f <->
   fst (PacketQueue.enqueue (Packet (flowId_ f) packetSize (priority_ f) now) q) = true).
Proof.
  intros (Hs & Hd & Hb) Hle Hroom. unfold TrafficGenerator.iteration.
  cbn [generatePacket].
  destruct (PacketQueue.enqueue _ q) as [ok q'] eqn:E.
  unfold u64 in *. cbn [fst].
  destruct ok; unfold wf, recordDrop; cbn [with_counters packetsSent_
    packetsDropped_ bytesTransmitted_]; unfold u64;
    rewrite ?(wrap64_small (packetsSent_ f + 1)) by (unfold u64; lia);
    rewrite ?(wrap64_small (packetsDropped_ f + 1)) by (unfold u64; lia).
  - repeat split; try lia.
  - repeat split; try lia; intros H; try discriminate; lia.
Qed.

End FlowFacts.

(** ** More on the token bucket *)

Module TokenBucketLaws.

Import TokenBucket TokenBucketFacts.

Lemma wrap64_le (z : Z) : 0 <= z -> wrap64 z <= z.
Proof. intros H. unfold wrap64. apply Z.mod_le; [exact H | rewrite two64_eq; lia]. Qed.

Lemma tokensToAdd_at_lastUpdate (now : Z) (tb : t) :
  lastUpdate_ tb = now -> tokensToAdd now tb = 0.
Proof.
  intros H. unfold tokensToAdd. rewrite H, Z.sub_diag.
  change (Chrono.duration_cast_us 0) with 0. change (wrap64 0) with 0.
  rewrite Z.mul_0_r. reflexivity.
Qed.

(** Right after a refill there is nothing to add at the same instant. *)
Lemma tokensToAdd_after_refill (now : Z) (tb : t) :
  tokensToAdd now (refill now tb) = 0.
Proof.
  pose proof (tokensToAdd_range now tb) as Hr. unfold refill.
  destruct (Z.ltb_spec 0 (tokensToAdd now tb)).
  - apply tokensToAdd_at_lastUpdate. reflexivity.
  - lia.
Qed.

Lemma refill_idempotent (now : Z) (tb : t) :
  refill now (refill now tb) = refill now tb.
Proof.
  unfold refill at 1. rewrite tokensToAdd_after_refill. reflexivity.
Qed.

(** [tokensToAdd] reads the rate and the time of the last refill only. *)
Lemma tokensToAdd_ext (now : Z) (tb tb' : t) :
  rate_ tb' = rate_ tb -> lastUpdate_ tb' = lastUpdate_ tb ->
  tokensToAdd now tb' = tokensToAdd now tb.
Proof. intros Hr Hl. unfold tokensToAdd. rewrite Hr, Hl. reflexivity. Qed.

Lemma refill_after_consume (now n : Z) (tb : t) :
  refill now (snd (consume now n tb)) = snd (consume now n tb).
Proof.
  unfold refill at 1.
  replace (tokensToAdd now (snd (consume now n tb))) with 0; [reflexivity |].
  rewrite <- (tokensToAdd_after_refill now tb). symmetry.
  unfold consume. destruct (n <=? tokens_ (refill now tb)); cbn [snd];
    [apply tokensToAdd_ext; reflexivity | reflexivity].
Qed.

(** X1. Calls at one instant. A second [getTokens] at the same clock
    reading returns the same count and the same bucket; a [consume] that was
    refused is refused again, and changes nothing, as long as the clock
    reading is the same; and after a [consume] that was granted a second
    one is granted exactly when its size fits in what the first left. *)
Theorem calls_at_one_instant (now a b : Z) (tb : t) :
  wf tb -> u32 a -> u32 b ->
  getTokens now (snd (getTokens now tb)) = getTokens now tb /\
  (fst (consume now a tb) = false ->
   consume now a (snd (consume now a tb)) = consume now a tb) /\
  (fst (consume now a tb) = true ->
   fst (consume now b (snd (consume now a tb)))
     = (a + b <=? tokens_ (refill now tb)) /\
   (a + b <= tokens_ (refill now tb) ->
    tokens_ (snd (consume now b (snd (consume now a tb))))
      = tokens_ (refill now tb) - a - b)).
Proof.
  intros Hwf [Ha0 Ha1] [Hb0 Hb1].
  split; [unfold getTokens; cbn [snd]; rewrite refill_idempotent; reflexivity |].
  split.
  - intros Hno. unfold consume at 1. rewrite refill_after_consume.
    unfold consume in *.
    destruct (a <=? tokens_ (refill now tb)) eqn:E; cbn [fst snd] in *;
      [discriminate |]. rewrite E. reflexivity.
  - intros Hyes.
    pose proof (refill_after_consume now a tb) as Hsame.
    pose proof (refill_wf now tb Hwf) as (Hr & Hc & Ht).
    rewrite (consume_unfold now a tb Hwf Ha0) in *. cbv zeta in *.
    destruct (Z.leb_spec a (tokens_ (refill now tb))) as [Hle | Hlt];
      cbn [fst snd] in *; [| discriminate].
    set (s1 := mk (rate_ (refill now tb)) (bucketSize_ (refill now tb))
                  (tokens_ (refill now tb) - a) (lastUpdate_ (refill now tb))) in *.
    assert (Hwf1 : wf s1).
    { unfold wf, s1, u64 in *; cbn [rate_ bucketSize_ tokens_]. repeat split; lia. }
    rewrite (consume_unfold now b s1 Hwf1 Hb0). cbv zeta. rewrite Hsame.
    cbn [s1 tokens_].
    destruct (Z.leb_spec b (tokens_ (refill now tb) - a)),
             (Z.leb_spec (a + b) (tokens_ (refill now tb)));
      cbn [fst snd tokens_]; split; intros; try reflexivity; lia.
Qed.

(** An instance: 3048 tokens after the refill; 1500 and 1500 are granted,
    1500 and 1600 are not. *)
Lemma calls_at_one_instant_witness :
  let tb := mk 819200 102400 1000 0 in
  fst (consume 2500000 1500 (snd (consume 2500000 1500 tb))) = true /\
  fst (consume 2500000 1600 (snd (consume 2500000 1500 tb))) = false.
Proof.
  intros tb.
  assert (Hwf : wf tb) by (unfold wf, u64; rewrite two64_eq; cbn; lia).
  assert (Ha : u32 1500) by (unfold u32; rewrite two32_eq; lia).
  assert (Hb : u32 1600) by (unfold u32; rewrite two32_eq; lia).
  split.
  - destruct (calls_at_one_instant 2500000 1500 1500 tb Hwf Ha Ha)
      as (_ & _ & Hsecond).
    destruct (Hsecond eq_refl) as [H _]. rewrite H. reflexivity.
  - destruct (calls_at_one_instant 2500000 1500 1600 tb Hwf Ha Hb)
      as (_ & _ & Hsecond).
    destruct (Hsecond eq_refl) as [H _]. rewrite H. reflexivity.
Defined.

(** *** The rate bound *)

Lemma nondecreasing_le (t0 : Z) (ts : list Z) (T : Z) :
  nondecreasing t0 ts T -> t0 <= T.
Proof.
  revert t0. induction ts as [| t1 ts IH]; intros t0 H; cbn in H; [exact H |].
  destruct H as [H01 H1]. specialize (IH t1 H1). lia.
Qed.

Lemma nondecreasing_app (t0 : Z) (ts us : list Z) (T : Z) :
  nondecreasing t0 (ts ++ us) T ->
  exists t1, t0 <= t1 /\ nondecreasing t0 ts t1 /\ nondecreasing t1 us T.
Proof.
  revert t0. induction ts as [| t ts IH]; intros t0 H; cbn in *.
  - exists t0. repeat split; [lia | lia | exact H].
  - destruct H as [H0 H1]. destruct (IH t H1) as (t1 & Hle & Ha & Hb).
    exists t1. repeat split; [lia | exact H0 | exact Ha | exact Hb].
Qed.

Lemma div_add_le (a b k : Z) : 0 < k -> a / k + b / k <= (a + b) / k.
Proof.
  intros Hk. apply Z.div_le_lower_bound; [exact Hk |].
  pose proof (Z.mul_div_le a k Hk). pose proof (Z.mul_div_le b k Hk). lia.
Qed.

Lemma duration_cast_us_add (x y : Z) :
  0 <= x -> 0 <= y ->
  Chrono.duration_cast_us x + Chrono.duration_cast_us y
    <= Chrono.duration_cast_us (x + y).
Proof.
  intros Hx Hy. unfold Chrono.duration_cast_us.
  rewrite !Z.quot_div_nonneg by lia. apply div_add_le. lia.
Qed.

(** Wrap-around only ever lowers the amount a refill adds. *)
Lemma tokensToAdd_le_spec (now : Z) (tb : t) :
  0 <= rate_ tb -> lastUpdate_ tb <= now ->
  tokensToAdd now tb <= spec_add now tb.
Proof.
  intros Hrate Hnow. unfold tokensToAdd, spec_add.
  set (e := Chrono.duration_cast_us (now - lastUpdate_ tb)).
  assert (He : 0 <= e) by (apply duration_cast_us_nonneg; lia).
  pose proof (wrap64_le e He) as Hwe.
  pose proof (wrap64_range e) as [Hwe0 _].
  apply Z.div_le_mono; [lia |].
  etransitivity; [apply wrap64_le; nia | nia].
Qed.

Lemma refill_lastUpdate (now : Z) (tb : t) :
  lastUpdate_ tb <= now -> lastUpdate_ (refill now tb) <= now.
Proof.
  intros H. unfold refill. destruct (0 <? tokensToAdd now tb); cbn; lia.
Qed.

(** A refill hands out nothing that was not in the budget. *)
Lemma refill_budget (now T : Z) (tb : t) :
  wf tb -> lastUpdate_ tb <= now -> now <= T ->
  budget (refill now tb) T <= budget tb T.
Proof.
  intros (Hr & Hc & Ht) Hnow HT.
  pose proof (tokensToAdd_range now tb) as Hadd.
  pose proof (tokensToAdd_le_spec now tb (proj1 Hr) Hnow) as Hspec.
  unfold refill. destruct (0 <? tokensToAdd now tb); [| lia].
  unfold budget; cbn [tokens_ rate_ lastUpdate_].
  assert (Hw : wrap64 (tokens_ tb + tokensToAdd now tb)
               <= tokens_ tb + tokensToAdd now tb)
    by (apply wrap64_le; unfold u64 in *; lia).
  unfold spec_add in Hspec.
  set (e1 := Chrono.duration_cast_us (now - lastUpdate_ tb)) in *.
  set (e2 := Chrono.duration_cast_us (T - now)).
  set (e3 := Chrono.duration_cast_us (T - lastUpdate_ tb)).
  assert (He : e1 + e2 <= e3).
  { unfold e1, e2, e3.
    replace (T - lastUpdate_ tb) with ((now - lastUpdate_ tb) + (T - now)) by lia.
    apply duration_cast_us_add; lia. }
  assert (Hsum : rate_ tb * e1 / 1000000 + rate_ tb * e2 / 1000000
                 <= rate_ tb * e3 / 1000000).
  { etransitivity; [apply div_add_le; lia |].
    apply Z.div_le_mono; [lia |]. unfold u64 in Hr. nia. }
  lia.
Qed.

Lemma budget_nonneg (T : Z) (tb : t) :
  wf tb -> lastUpdate_ tb <= T -> tokens_ tb <= budget tb T.
Proof.
  intros (Hr & _ & _) HT. unfold budget.
  assert (0 <= rate_ tb * Chrono.duration_cast_us (T - lastUpdate_ tb) / 1000000).
  { apply Z.div_pos; [| lia].
    pose proof (duration_cast_us_nonneg (T - lastUpdate_ tb)). unfold u64 in Hr. nia. }
  lia.
Qed.

(** What a call is granted comes out of the budget. *)
Lemma step_budget (c : call) (T : Z) (tb : t) :
  wf tb -> valid_call c -> lastUpdate_ tb <= call_time c -> call_time c <= T ->
  granted [c] tb + budget (step c tb) T <= budget tb T /\
  0 <= granted [c] tb /\
  wf (step c tb) /\
  lastUpdate_ (step c tb) <= call_time c.
Proof.
  intros Hwf Hc Hnow HT.
  destruct c as [now n | now]; cbn [call_time valid_call granted step] in *.
  - destruct Hc as [Hn0 Hn1].
    pose proof (refill_budget now T tb Hwf Hnow HT) as Hb.
    pose proof (refill_lastUpdate now tb Hnow) as Hl.
    pose proof (refill_wf now tb Hwf) as Hwf'.
    rewrite (consume_unfold now n tb Hwf Hn0). cbv zeta.
    destruct (Z.leb_spec n (tokens_ (refill now tb))); cbn [fst snd].
    + destruct Hwf' as (Hr' & Hc' & Ht').
      unfold budget in *; cbn [tokens_ rate_ lastUpdate_].
      repeat split; try lia; unfold u64 in *; cbn [rate_ bucketSize_ tokens_]; lia.
    + repeat split; try lia; apply Hwf'.
  - cbn [getTokens snd].
    pose proof (refill_budget now T tb Hwf Hnow HT).
    repeat split; try lia; try (apply refill_wf; exact Hwf).
    apply refill_lastUpdate; exact Hnow.
Qed.

Lemma granted_cons (c : call) (cs : list call) (tb : t) :
  granted (c :: cs) tb = granted [c] tb + granted cs (step c tb).
Proof. cbn [granted]. lia. Qed.

Lemma granted_budget (cs : list call) (t0 T : Z) (tb : t) :
  wf tb -> Forall valid_call cs ->
  lastUpdate_ tb <= t0 -> nondecreasing t0 (map call_time cs) T ->
  0 <= granted cs tb /\
  granted cs tb + budget (run cs tb) T <= budget tb T /\
  wf (run cs tb) /\
  lastUpdate_ (run cs tb) <= T.
Proof.
  revert t0 tb. induction cs as [| c cs IH]; intros t0 tb Hwf Hcs Hl Hts.
  - cbn in *. repeat split; try lia; apply Hwf.
  - inversion Hcs as [| ? ? Hc Hcs']; subst. cbn [map nondecreasing] in Hts.
    destruct Hts as [H0 Hrest].
    pose proof (nondecreasing_le _ _ _ Hrest) as HT.
    destruct (step_budget c T tb Hwf Hc (Z.le_trans _ _ _ Hl H0) HT)
      as (Hb & Hg & Hwf' & Hl').
    destruct (IH (call_time c) (step c tb) Hwf' Hcs' Hl' Hrest)
      as (Hg' & Hb' & Hwf'' & Hl'').
    rewrite granted_cons. change (run (c :: cs) tb) with (run cs (step c tb)).
    repeat split; try lia; apply Hwf''.
Qed.

(** X2. The rate bound of the bucket. Over any sequence of [consume] and
    [getTokens] calls made at clock readings that do not go back, from the
    last refill to a time [T], the bytes granted are at most the tokens the
    bucket started with plus [rate * elapsed_us / 10^6], hence at most the
    capacity plus that; wrap-around of the 64-bit arithmetic never grants
    more. *)
Theorem granted_within_rate (cs : list call) (T : Z) (tb : t) :
  wf tb -> tokens_ tb <= bucketSize_ tb ->
  Forall valid_call cs ->
  nondecreasing (lastUpdate_ tb) (map call_time cs) T ->
  0 <= granted cs tb /\
  granted cs tb + tokens_ (run cs tb)
    <= tokens_ tb
       + rate_ tb * Chrono.duration_cast_us (T - lastUpdate_ tb) / 1000000 /\
  granted cs tb
    <= bucketSize_ tb
       + rate_ tb * Chrono.duration_cast_us (T - lastUpdate_ tb) / 1000000.
Proof.
  intros Hwf Hcap Hcs Hts.
  destruct (granted_budget cs (lastUpdate_ tb) T tb Hwf Hcs (Z.le_refl _) Hts)
    as (Hg & Hb & Hwf' & Hl').
  pose proof (budget_nonneg T (run cs tb) Hwf' Hl') as Hfin.
  destruct Hwf' as (_ & _ & [Ht0 _]).
  unfold budget at 2 in Hb. repeat split; lia.
Qed.

(** An instance: a full bucket of 3000 tokens at 1 byte per microsecond;
    four requests of 1500 bytes within 2 ms: the first two and, after the
    refill, the fourth are granted, 4500 bytes, within 3000 + 2000. *)
Lemma granted_within_rate_witness :
  let tb := TokenBucket 1000000 3000 0 in
  let cs := [Consume 0 1500; Consume 100000 1500; Consume 200000 1500;
             Consume 2000000 1500] in
  granted cs tb = 4500 /\ granted cs tb <= 3000 + 2000.
Proof.
  intros tb cs.
  assert (Hwf : wf tb) by (unfold wf, u64; rewrite two64_eq; cbn; lia).
  assert (Hcap : tokens_ tb <= bucketSize_ tb) by (cbn; lia).
  assert (Hn : u32 1500) by (unfold u32; rewrite two32_eq; lia).
  assert (Hcs : Forall valid_call cs)
    by (unfold cs; repeat (apply Forall_cons; [exact Hn |]); apply Forall_nil).
  assert (Hts : nondecreasing (lastUpdate_ tb) (map call_time cs) 2000000)
    by (cbn; lia).
  destruct (granted_within_rate cs 2000000 tb Hwf Hcap Hcs Hts) as (_ & _ & H).
  split; [reflexivity | exact H].
Defined.

End TokenBucketLaws.

(** ** More on the packet queue *)

Module PacketQueueLaws.

Import Packet PacketQueue PacketQueueFacts.

Lemma collect_cons (f : op -> t -> list Packet.t) (o : op) (os : list op) (q : t) :
  collect f (o :: os) q = f o q ++ collect f os (step o q).
Proof. reflexivity. Qed.

(** One operation neither loses nor invents a packet. *)
Lemma step_conserves (o : op) (q : t) :
  Permutation (queue_ q ++ accepted_by o q) (delivered_by o q ++ queue_ (step o q)).
Proof.
  destruct o as [p | | |]; cbn [accepted_by delivered_by step].
  - unfold enqueue. destruct (maxSize_ q <=? currentSize_ q); cbn [fst snd].
    + rewrite app_nil_r. reflexivity.
    + reflexivity.
  - rewrite app_nil_r. destruct (queue_ q) eqn:E.
    + rewrite (dequeue_empty q E). cbn [fst snd]. rewrite E.
      destruct (shutdown_ q); reflexivity.
    + assert (Hne : queue_ q <> []) by (rewrite E; discriminate).
      rewrite <- E. rewrite (dequeue_nonempty q Hne).
      destruct (take_nonempty q Hne) as (p & rest & Htop & Htake).
      rewrite Htake. cbn [fst snd with_queue queue_].
      apply top_pop_perm with PacketComparator. exact Htop.
  - rewrite app_nil_r. destruct (queue_ q) eqn:E.
    + unfold tryDequeue. rewrite E. cbn. rewrite E. reflexivity.
    + assert (Hne : queue_ q <> []) by (rewrite E; discriminate).
      rewrite <- E. rewrite (tryDequeue_nonempty q Hne).
      destruct (take_nonempty q Hne) as (p & rest & Htop & Htake).
      rewrite Htake. cbn [fst snd with_queue queue_].
      apply top_pop_perm with PacketComparator. exact Htop.
  - rewrite app_nil_r. reflexivity.
Qed.

Lemma run_conserves (os : list op) (q : t) :
  Permutation (queue_ q ++ collect accepted_by os q)
              (collect delivered_by os q ++ queue_ (run os q)).
Proof.
  revert q. induction os as [| o os IH]; intros q.
  - cbn. rewrite app_nil_r. reflexivity.
  - rewrite !collect_cons, run_cons.
    rewrite app_assoc, (step_conserves o q), <- !app_assoc.
    apply Permutation_app_head. apply IH.
Qed.

Lemma offered_split (os : list op) (q : t) :
  Permutation (collect offered_by os q)
              (collect accepted_by os q ++ collect rejected_by os q).
Proof.
  revert q. induction os as [| o os IH]; intros q; [reflexivity |].
  rewrite !collect_cons. rewrite (IH (step o q)).
  destruct o as [p | | |]; cbn [offered_by accepted_by rejected_by]; try reflexivity.
  destruct (fst (enqueue p q)); cbn [app].
  - reflexivity.
  - apply Permutation_middle.
Qed.

Lemma run_counts_rejected (os : list op) (q : t) :
  0 <= totalDropped_ q ->
  totalDropped_ q + Z.of_nat (length os) < two64 ->
  totalDropped_ (run os q)
    = totalDropped_ q + Z.of_nat (length (collect rejected_by os q)).
Proof.
  revert q. induction os as [| o os IH]; intros q H0 Hroom.
  - cbn. lia.
  - rewrite collect_cons, run_cons, length_app.
    cbn [length] in Hroom.
    pose proof (step_totalDropped o q H0) as Hs.
    assert (Hstep : totalDropped_ (step o q)
                    = totalDropped_ q + Z.of_nat (length (rejected_by o q))).
    { destruct o as [p | | |]; cbn [step rejected_by].
      - unfold enqueue. destruct (maxSize_ q <=? currentSize_ q);
          cbn [fst snd with_dropped with_queue totalDropped_ length].
        + rewrite wrap64_small by (unfold u64; lia). lia.
        + lia.
      - unfold dequeue. rewrite take_top_pop.
        destruct (negb (wait_pred q)); [cbn; lia |].
        destruct (shutdown_ q && empty (queue_ q)); [cbn; lia |].
        destruct (top_pop PacketComparator (queue_ q)) as [[? ?] |]; cbn; lia.
      - unfold tryDequeue. rewrite take_top_pop.
        destruct (empty (queue_ q)); [cbn; lia |].
        destruct (top_pop PacketComparator (queue_ q)) as [[? ?] |]; cbn; lia.
      - cbn. lia. }
    rewrite IH by lia. lia.
Qed.

(** X3. No packet is lost or made up. Over any sequence of operations on a
    new queue, the packets accepted are those handed to the consumer
    together with those still buffered; the packets offered are those
    accepted together with those refused; and, below [2^64] operations,
    [totalDropped_] is the number of packets refused. *)
Theorem packets_conserved (maxSize : Z) (os : list op) :
  Z.of_nat (length os) < two64 ->
  let q := PacketQueue maxSize in
  Permutation (collect accepted_by os q)
              (collect delivered_by os q ++ queue_ (run os q)) /\
  Permutation (collect offered_by os q)
              (collect accepted_by os q ++ collect rejected_by os q) /\
  getTotalDropped (run os q) = Z.of_nat (length (collect rejected_by os q)).
Proof.
  intros Hlen q. split; [| split].
  - apply (run_conserves os q).
  - apply offered_split.
  - unfold getTotalDropped. rewrite run_counts_rejected; cbn [q PacketQueue totalDropped_]; lia.
Qed.

(** An instance: a queue of bound 1; of two arrivals one is accepted and
    one refused, and the accepted one is delivered. *)
Lemma packets_conserved_witness :
  let a := Packet 1 100 LOW 5 in
  let b := Packet 2 100 HIGH 9 in
  let os := [Enqueue a; Enqueue b; TryDequeue] in
  collect delivered_by os (PacketQueue 1) = [a] /\
  getTotalDropped (run os (PacketQueue 1)) = 1.
Proof.
  intros a b os.
  assert (Hlen : Z.of_nat (length os) < two64) by (rewrite two64_eq; cbn; lia).
  destruct (packets_conserved 1 os Hlen) as (_ & _ & Hdrop).
  split; [reflexivity | rewrite Hdrop; reflexivity].
Defined.

(** *** After shutdown *)

Lemma dequeue_n_succ (n : nat) (q : t) :
  dequeue_n (S n) q =
    (fst (dequeue q) :: fst (dequeue_n n (snd (dequeue q))),
     snd (dequeue_n n (snd (dequeue q)))).
Proof.
  cbn [dequeue_n]. destruct (dequeue q) as [r q']. cbn [fst snd].
  destruct (dequeue_n n q') as [rs q'']. reflexivity.
Qed.

Lemma dequeue_n_drained (k : nat) (q : t) :
  queue_ q = [] -> shutdown_ q = true ->
  dequeue_n k q = (repeat (Returned None) k, q).
Proof.
  intros E Hs. induction k as [| k IH]; [reflexivity |].
  rewrite dequeue_n_succ, (dequeue_empty q E), Hs. cbn [fst snd].
  rewrite IH. reflexivity.
Qed.

Lemma dequeue_n_shutdown (n : nat) (q : t) :
  shutdown_ q = true -> n = length (queue_ q) ->
  fst (dequeue_n n q) = map (fun p => Returned (Some p)) (drain n q) /\
  queue_ (snd (dequeue_n n q)) = [] /\
  shutdown_ (snd (dequeue_n n q)) = true.
Proof.
  revert q. induction n as [| n IH]; intros q Hs Hn.
  - destruct (queue_ q) eqn:E; [| discriminate]. cbn. auto.
  - assert (Hne : queue_ q <> []) by (intros E; rewrite E in Hn; discriminate).
    destruct (take_nonempty q Hne) as (p & rest & Htop & Htake).
    rewrite dequeue_n_succ, (dequeue_nonempty q Hne).
    cbn [drain]. rewrite (tryDequeue_nonempty q Hne), Htake. cbn [fst snd].
    apply top_pop_length in Htop.
    destruct (IH (with_queue q rest (wrap64 (currentSize_ q - 1)))) as (Hr & Hq & Hs').
    + exact Hs.
    + cbn [with_queue queue_]. congruence.
    + rewrite Hr. cbn [map]. auto.
Qed.

(** X4. [shutdown] discards nothing. After it, as many blocking [dequeue]
    calls as there are buffered packets return every one of them, highest
    priority and earliest creation first, none of them waiting; every call
    after that returns [nullptr] at once and leaves the queue as it is. *)
Theorem shutdown_keeps_packets (q : t) (k : nat) :
  let n := length (queue_ q) in
  let served := drain n (shutdown q) in
  let q' := snd (dequeue_n n (shutdown q)) in
  fst (dequeue_n n (shutdown q)) = map (fun p => Returned (Some p)) served /\
  Permutation served (queue_ q) /\
  StronglySorted outranks_or_ties served /\
  dequeue_n k q' = (repeat (Returned None) k, q').
Proof.
  intros n served q'.
  destruct (dequeue_n_shutdown n (shutdown q) eq_refl eq_refl) as (Hr & Hq & Hs).
  destruct (drain_all n (shutdown q) eq_refl) as [Hperm Hsorted].
  split; [exact Hr |]. split; [exact Hperm |]. split; [exact Hsorted |].
  apply dequeue_n_drained; assumption.
Qed.

End PacketQueueLaws.

(** ** More on the flows *)

Module FlowLaws.

Import Packet Flow FlowFacts.

(** X5. A constant-rate flow of rate [R >= 1] waits [avg * 10^6 / R]
    microseconds rounded down, so it is never slower than its target rate;
    and when [R] is above [avg * 10^6] bytes per second the wait is 0: the
    producer does not sleep between packets. *)
Theorem constant_rate_gap (avg : Z) (draw : float) (f : t) :
  type_ f = CONSTANT_RATE ->
  u32 avg ->
  1 <= targetRate_ f ->
  exists gap,
    getInterArrivalTime avg draw f = Micros gap /\
    gap * targetRate_ f <= avg * 10 ^ 6 < (gap + 1) * targetRate_ f /\
    (gap = 0 <-> avg * 10 ^ 6 < targetRate_ f).
Proof.
  intros Hty Havg HR. exists (avg * 10 ^ 6 / targetRate_ f).
  assert (H0 : 0 <= avg * 10 ^ 6) by (destruct Havg; lia).
  split; [| split].
  - unfold getInterArrivalTime. rewrite Hty, (wrap64_avg avg Havg).
    rewrite udiv_some by lia. reflexivity.
  - pose proof (Z.mul_div_le (avg * 10 ^ 6) (targetRate_ f)).
    pose proof (Z.mul_succ_div_gt (avg * 10 ^ 6) (targetRate_ f)). lia.
  - split; intros H.
    + pose proof (Z.mul_succ_div_gt (avg * 10 ^ 6) (targetRate_ f)).
      rewrite H in *. lia.
    + apply Z.div_small. lia.
Qed.

(** An instance: the constant flows of the first scenario, 400 KiB/s. *)
Lemma constant_rate_gap_witness :
  getInterArrivalTime 500 0.5 (Flow 1 CONSTANT_RATE 409600 MEDIUM) = Micros 1220.
Proof.
  assert (Havg : u32 500) by (unfold u32; rewrite two32_eq; lia).
  assert (HR : 1 <= targetRate_ (Flow 1 CONSTANT_RATE 409600 MEDIUM)) by (cbn; lia).
  destruct (constant_rate_gap 500 0.5 (Flow 1 CONSTANT_RATE 409600 MEDIUM)
              eq_refl Havg HR) as (gap & Hgap & _).
  rewrite Hgap. vm_compute in Hgap. exact (eq_sym Hgap).
Defined.

(** X6. The shape of a bursty flow. At the same target rate [R], with
    [2 <= R] and [3 R < 2^64], the wait in a burst is at most a third of the
    constant-rate wait, and the wait outside a burst is at least twice the
    constant-rate wait. *)
Theorem bursty_gaps_around_constant (avg : Z) (u v w : float) (fb fc : t) :
  type_ fb = BURSTY -> type_ fc = CONSTANT_RATE ->
  targetRate_ fc = targetRate_ fb ->
  u32 avg ->
  2 <= targetRate_ fb ->
  3 * targetRate_ fb < two64 ->
  PrimFloat.ltb u burst_threshold = true ->
  PrimFloat.ltb v burst_threshold = false ->
  exists burst constant idle,
    getInterArrivalTime avg u fb = Micros burst /\
    getInterArrivalTime avg w fc = Micros constant /\
    getInterArrivalTime avg v fb = Micros idle /\
    0 <= burst /\
    3 * burst <= constant /\
    2 * constant <= idle.
Proof.
  intros Hb Hc Hsame Havg HR H3 Hu Hv.
  set (R := targetRate_ fb) in *. set (a := avg * 10 ^ 6).
  assert (Ha : 0 <= a) by (unfold a; destruct Havg; lia).
  assert (Hh : 1 <= R / 2) by (apply Z.div_le_lower_bound; lia).
  assert (Hh2 : 2 * (R / 2) <= R) by (apply Z.mul_div_le; lia).
  exists (a / (3 * R)), (a / R), (a / (R / 2)).
  split; [| split; [| split; [| split; [| split]]]].
  - unfold getInterArrivalTime. rewrite Hb, Hu, (wrap64_avg avg Havg). fold R.
    rewrite wrap64_small by (unfold u64; lia).
    rewrite udiv_some by lia. rewrite (Z.mul_comm R 3). reflexivity.
  - unfold getInterArrivalTime. rewrite Hc, Hsame, (wrap64_avg avg Havg).
    rewrite udiv_some by lia. reflexivity.
  - unfold getInterArrivalTime. rewrite Hb, Hv, (wrap64_avg avg Havg). fold R.
    rewrite udiv_some by lia. reflexivity.
  - apply Z.div_pos; lia.
  - apply Z.div_le_lower_bound; [lia |].
    pose proof (Z.mul_div_le a (3 * R)). lia.
  - apply Z.div_le_lower_bound; [lia |].
    pose proof (Z.mul_div_le a R).
    assert (0 <= a / R) by (apply Z.div_pos; lia). nia.
Qed.

(** An instance: 400 KiB/s: 406, 1220 and 2441 microseconds. *)
Lemma bursty_gaps_around_constant_witness :
  3 * 406 <= 1220 /\ 2 * 1220 <= 2441 /\
  getInterArrivalTime 500 0.25 (Flow 1 BURSTY 409600 MEDIUM) = Micros 406.
Proof.
  assert (Havg : u32 500) by (unfold u32; rewrite two32_eq; lia).
  assert (HR : 2 <= targetRate_ (Flow 1 BURSTY 409600 MEDIUM)) by (cbn; lia).
  assert (H3 : 3 * targetRate_ (Flow 1 BURSTY 409600 MEDIUM) < two64)
    by (rewrite two64_eq; cbn; lia).
  destruct (bursty_gaps_around_constant 500 0.25 0.5 0.5
              (Flow 1 BURSTY 409600 MEDIUM) (Flow 2 CONSTANT_RATE 409600 MEDIUM)
              eq_refl eq_refl eq_refl Havg HR H3 eq_refl eq_refl)
    as (b & c & i & Hb & Hc & Hi & _ & H3b & H2c).
  vm_compute in Hb, Hc, Hi.
  injection Hb as <-. injection Hc as <-. injection Hi as <-.
  split; [exact H3b |]. split; [exact H2c | reflexivity].
Defined.

End FlowLaws.

(** ** The producer, the shaper and the collector *)

Module PipelineLaws.

Import Packet.

Lemma wrap32_small (z : Z) : u32 z -> wrap32 z = z.
Proof. unfold u32, wrap32. intros H. apply Z.mod_small. exact H. Qed.

Lemma wrap32_le (z : Z) : 0 <= z -> 0 <= wrap32 z <= z.
Proof.
  intros H. unfold wrap32. split.
  - apply Z.mod_pos_bound. rewrite two32_eq. lia.
  - apply Z.mod_le; [exact H | rewrite two32_eq; lia].
Qed.

Lemma wrap64_add_l (a b : Z) : wrap64 (wrap64 a + b) = wrap64 (a + b).
Proof. unfold wrap64. apply Z.add_mod_idemp_l. rewrite two64_eq. lia. Qed.

Lemma wrap64_add_r (a b : Z) : wrap64 (a + wrap64 b) = wrap64 (a + b).
Proof. unfold wrap64. apply Z.add_mod_idemp_r. rewrite two64_eq. lia. Qed.

(** X7. The serialization delay of the shaper. For a link capacity of at
    least 1 bit per second the delay is defined and is never longer than
    the exact [size * 8 * 10^6 / linkCapacity]; for packets below [2^29]
    bytes it is that value rounded down. From [2^29] bytes on, the 32-bit
    product [size * 8] wraps and the delay is that of the wrapped bit count.
    At capacity 0 the division is by zero. *)
Theorem serialization_delay (size linkCapacity : Z) :
  u32 size ->
  1 <= linkCapacity ->
  exists micros,
    TrafficShaper.transmissionTimeMicros size linkCapacity = Some micros /\
    micros = wrap32 (size * 8) * 10 ^ 6 / linkCapacity /\
    0 <= micros <= size * 8 * 10 ^ 6 / linkCapacity /\
    (size < 2 ^ 29 ->
     micros * linkCapacity <= size * 8 * 10 ^ 6 < (micros + 1) * linkCapacity) /\
    TrafficShaper.transmissionTimeMicros size 0 = None.
Proof.
  intros [Hs0 Hs1] Hl.
  pose proof (wrap32_le (size * 8) ltac:(lia)) as [Hw0 Hw1].
  assert (Hw2 : wrap32 (size * 8) < two32).
  { unfold wrap32. apply Z.mod_pos_bound. rewrite two32_eq. lia. }
  assert (Hprod : wrap64 (wrap32 (size * 8) * 1000000) = wrap32 (size * 8) * 10 ^ 6).
  { change (10 ^ 6) with 1000000. apply wrap64_small. unfold u64.
    rewrite two32_eq in Hw2. rewrite two64_eq. lia. }
  exists (wrap32 (size * 8) * 10 ^ 6 / linkCapacity).
  split; [| split; [reflexivity | split; [| split]]].
  - unfold TrafficShaper.transmissionTimeMicros. rewrite Hprod.
    apply udiv_some. lia.
  - split; [apply Z.div_pos; lia | apply Z.div_le_mono; lia].
  - intros Hsmall.
    rewrite wrap32_small by (unfold u32; rewrite two32_eq; lia).
    pose proof (Z.mul_div_le (size * 8 * 10 ^ 6) linkCapacity).
    pose proof (Z.mul_succ_div_gt (size * 8 * 10 ^ 6) linkCapacity). lia.
  - apply udiv_none. reflexivity.
Qed.

(** An instance: 1500 bytes on the 10 Mbit/s link of the scenarios take
    1200 microseconds. *)
Lemma serialization_delay_witness :
  TrafficShaper.transmissionTimeMicros 1500 10000000 = Some 1200.
Proof.
  assert (Hs : u32 1500) by (unfold u32; rewrite two32_eq; lia).
  assert (Hl : 1 <= 10000000) by lia.
  destruct (serialization_delay 1500 10000000 Hs Hl) as (m & Hm & Hval & _).
  rewrite Hm, Hval. reflexivity.
Defined.

(** *** The producer and the queue *)

Lemma react_state (e : TrafficGenerator.event) (f : Flow.t) (q : PacketQueue.t) :
  TrafficGenerator.react e (f, q) =
    match e with
    | TrafficGenerator.Generate packetSize now =>
        TrafficGenerator.iteration packetSize now f q
    | TrafficGenerator.Take => (f, snd (PacketQueue.tryDequeue q))
    end.
Proof. destruct e; reflexivity. Qed.

Lemma tryDequeue_counters (q : PacketQueue.t) :
  PacketQueue.inv q ->
  PacketQueue.totalDropped_ (snd (PacketQueue.tryDequeue q))
    = PacketQueue.totalDropped_ q /\
  0 <= PacketQueue.currentSize_ (snd (PacketQueue.tryDequeue q))
    <= PacketQueue.currentSize_ q.
Proof.
  intros Hinv.
  pose proof (PacketQueueFacts.step_inv PacketQueue.TryDequeue q Hinv) as (Hlen' & _ & _).
  destruct Hinv as (Hlen & _ & _). cbn [PacketQueue.step] in Hlen'.
  unfold PacketQueue.tryDequeue in *. rewrite PacketQueueFacts.take_top_pop in *.
  destruct (PacketQueue.empty (PacketQueue.queue_ q)); cbn [snd] in *; [lia |].
  destruct (PacketQueue.top_pop PacketQueue.PacketComparator (PacketQueue.queue_ q))
    as [[p rest] |] eqn:E; cbn [snd] in *; [| lia].
  apply PacketQueueFacts.top_pop_length in E.
  cbn [PacketQueue.with_queue PacketQueue.totalDropped_ PacketQueue.currentSize_
       PacketQueue.queue_] in *.
  lia.
Qed.

Lemma react_accounted (e : TrafficGenerator.event) (f : Flow.t) (q : PacketQueue.t) :
  TrafficGenerator.accounted f q ->
  Flow.packetsSent_ f + TrafficGenerator.generated [e] < two64 ->
  let s := TrafficGenerator.react e (f, q) in
  TrafficGenerator.accounted (fst s) (snd s) /\
  Flow.packetsSent_ (fst s)
    = Flow.packetsSent_ f + TrafficGenerator.generated [e].
Proof.
  intros (Hwf & Hinv & Hdrop & Hsize0 & Hsum) Hroom. rewrite react_state.
  destruct e as [packetSize now |]; cbv zeta.
  - change (TrafficGenerator.generated [TrafficGenerator.Generate packetSize now])
      with 1 in *.
    unfold TrafficGenerator.iteration. cbn [Flow.generatePacket].
    set (p := Packet _ _ _ _).
    pose proof (PacketQueueFacts.enqueue_inv p q Hinv) as Hinv'.
    destruct Hwf as (Hs & Hd & Hb). destruct Hinv as (Hlen & Hle & Hmax).
    unfold PacketQueue.enqueue in *.
    destruct (Z.leb_spec (PacketQueue.maxSize_ q) (PacketQueue.currentSize_ q));
      cbn [fst snd] in *;
      (split; [split; [| split; [exact Hinv' |]] |]);
      unfold Flow.wf, Flow.recordDrop;
      cbn [Flow.with_counters Flow.packetsSent_ Flow.packetsDropped_
           Flow.bytesTransmitted_ PacketQueue.with_dropped PacketQueue.with_queue
           PacketQueue.totalDropped_ PacketQueue.currentSize_];
      unfold u64 in *;
      rewrite ?(wrap64_small (Flow.packetsSent_ f + 1)) by (unfold u64; lia);
      rewrite ?(wrap64_small (Flow.packetsDropped_ f + 1)) by (unfold u64; lia);
      rewrite ?(wrap64_small (PacketQueue.totalDropped_ q + 1)) by (unfold u64; lia);
      rewrite ?(wrap64_small (PacketQueue.currentSize_ q + 1)) by (unfold u64; lia);
      repeat split; lia.
  - cbn [fst snd]. change (TrafficGenerator.generated [TrafficGenerator.Take]) with 0.
    pose proof (PacketQueueFacts.step_inv PacketQueue.TryDequeue q Hinv) as Hinv'.
    cbn [PacketQueue.step] in Hinv'.
    destruct (tryDequeue_counters q Hinv) as [Hq1 Hq2].
    split; [| lia].
    split; [exact Hwf |]. split; [exact Hinv' |]. repeat split; lia.
Qed.

Lemma generated_cons (e : TrafficGenerator.event) (es : list TrafficGenerator.event) :
  TrafficGenerator.generated (e :: es)
    = TrafficGenerator.generated [e] + TrafficGenerator.generated es.
Proof.
  unfold TrafficGenerator.generated. cbn [filter].
  destruct e; cbn [length]; lia.
Qed.

Lemma generated_bounds (es : list TrafficGenerator.event) :
  0 <= TrafficGenerator.generated es <= Z.of_nat (length es).
Proof.
  induction es as [| e es IH]; [cbn; lia |].
  rewrite generated_cons. cbn [length].
  assert (0 <= TrafficGenerator.generated [e] <= 1) by (destruct e; cbn; lia). lia.
Qed.

Lemma simulate_accounted (es : list TrafficGenerator.event) (f : Flow.t)
  (q : PacketQueue.t) :
  TrafficGenerator.accounted f q ->
  Flow.packetsSent_ f + TrafficGenerator.generated es < two64 ->
  let s := TrafficGenerator.simulate es (f, q) in
  TrafficGenerator.accounted (fst s) (snd s) /\
  Flow.packetsSent_ (fst s) = Flow.packetsSent_ f + TrafficGenerator.generated es.
Proof.
  revert f q. induction es as [| e es IH]; intros f q Hacc Hroom.
  - cbn. split; [exact Hacc | lia].
  - rewrite generated_cons in Hroom |- *.
    pose proof (generated_bounds es) as Hes.
    change (TrafficGenerator.simulate (e :: es) (f, q))
      with (TrafficGenerator.simulate es (TrafficGenerator.react e (f, q))).
    destruct (react_accounted e f q Hacc) as [Hacc1 Hsent1]; [lia |].
    destruct (TrafficGenerator.react e (f, q)) as [f1 q1]. cbn [fst snd] in *.
    destruct (IH f1 q1 Hacc1) as [Hacc2 Hsent2]; [lia |].
    split; [exact Hacc2 | lia].
Qed.

(** X8. The producer's accounting. A new flow feeding a new queue, with the
    consumer taking packets in between, for fewer than [2^64] packets: the
    flow has sent as many packets as its loop has made turns; the drops it
    has recorded are the queue's drops, and are at most what it has sent;
    and the number of packets that [getAverageDelay] divides by, sent less
    dropped, includes every packet still in the queue. *)
Theorem producer_accounting (flowId : Z) (type : Flow.FlowType) (targetRate : Z)
  (priority : PacketPriority) (maxSize : Z) (es : list TrafficGenerator.event) :
  u64 maxSize ->
  TrafficGenerator.generated es < two64 ->
  let s := TrafficGenerator.simulate es
             (Flow.Flow flowId type targetRate priority,
              PacketQueue.PacketQueue maxSize) in
  Flow.getPacketsSent (fst s) = TrafficGenerator.generated es /\
  Flow.getPacketsDropped (fst s) = PacketQueue.getTotalDropped (snd s) /\
  Flow.getPacketsDropped (fst s) <= Flow.getPacketsSent (fst s) /\
  Flow.transmitted (fst s)
    = Flow.getPacketsSent (fst s) - Flow.getPacketsDropped (fst s) /\
  0 <= PacketQueue.size (snd s) <= Flow.transmitted (fst s).
Proof.
  intros Hmax Hroom s.
  assert (Hacc0 : TrafficGenerator.accounted
                    (Flow.Flow flowId type targetRate priority)
                    (PacketQueue.PacketQueue maxSize)).
  { split; [| split; [apply PacketQueueFacts.new_queue_inv; exact Hmax |]].
    - unfold Flow.wf, u64. rewrite two64_eq. cbn. lia.
    - cbn. lia. }
  destruct (simulate_accounted es _ _ Hacc0) as [Hacc Hsent];
    [cbn [Flow.Flow Flow.packetsSent_]; lia |].
  fold s in Hacc, Hsent. cbn [Flow.Flow Flow.packetsSent_] in Hsent.
  destruct Hacc as (Hwf & Hinv & Hdrop & Hsize0 & Hsum).
  unfold Flow.getPacketsSent, Flow.getPacketsDropped,
    PacketQueue.getTotalDropped, PacketQueue.size.
  assert (Hle : Flow.packetsDropped_ (fst s) <= Flow.packetsSent_ (fst s)) by lia.
  rewrite (FlowFacts.transmitted_exact (fst s) Hwf Hle).
  repeat split; lia.
Qed.

(** An instance: a queue of bound 1, three packets generated and one taken
    in between: one drop, one packet delivered, one buffered. *)
Lemma producer_accounting_witness :
  let es := [TrafficGenerator.Generate 100 1; TrafficGenerator.Generate 200 2;
             TrafficGenerator.Take; TrafficGenerator.Generate 300 3] in
  let s := TrafficGenerator.simulate es
             (Flow.Flow 7 Flow.CONSTANT_RATE 409600 MEDIUM,
              PacketQueue.PacketQueue 1) in
  Flow.getPacketsSent (fst s) = 3 /\ Flow.getPacketsDropped (fst s) = 1 /\
  PacketQueue.size (snd s) = 1.
Proof.
  intros es s.
  assert (Hmax : u64 1) by (unfold u64; rewrite two64_eq; lia).
  assert (Hroom : TrafficGenerator.generated es < two64)
    by (rewrite two64_eq; cbn; lia).
  destruct (producer_accounting 7 Flow.CONSTANT_RATE 409600 MEDIUM 1 es Hmax Hroom)
    as (Hsent & _).
  split; [exact Hsent |]. split; reflexivity.
Defined.

(** *** The collector's sample *)

Lemma fold_accumulate (elapsed : float) (flows : list Flow.t)
  (entries : list StatisticsCollector.FlowStats) (B P : Z) :
  fold_left (StatisticsCollector.accumulate elapsed) flows
            (entries, wrap64 B, wrap64 P)
  = (entries ++ map (StatisticsCollector.collectFlowStat elapsed) flows,
     wrap64 (B + StatisticsCollector.sum_bytes
                   (map (StatisticsCollector.collectFlowStat elapsed) flows)),
     wrap64 (P + StatisticsCollector.sum_packets
                   (map (StatisticsCollector.collectFlowStat elapsed) flows))).
Proof.
  revert entries B P. induction flows as [| f flows IH]; intros entries B P.
  - cbn. rewrite app_nil_r, !Z.add_0_r. reflexivity.
  - cbn [fold_left map StatisticsCollector.accumulate].
    rewrite wrap64_add_l.
    rewrite (wrap64_add_r (wrap64 P)), wrap64_add_l.
    rewrite IH. rewrite <- app_assoc. cbn [app].
    cbn [StatisticsCollector.sum_bytes StatisticsCollector.sum_packets fold_right].
    fold (StatisticsCollector.sum_bytes
            (map (StatisticsCollector.collectFlowStat elapsed) flows)).
    fold (StatisticsCollector.sum_packets
            (map (StatisticsCollector.collectFlowStat elapsed) flows)).
    rewrite !Z.add_assoc. reflexivity.
Qed.

(** X9. A sample of the collector is consistent in itself: it has one entry
    per flow, in the order of the flows and with their ids; its queue
    occupancy is the size of the queue; and its totals are the sums over its
    entries of the bytes transmitted and of packets sent less packets
    dropped, modulo [2^64]. *)
Theorem sample_totals (elapsed : float) (flows : list Flow.t) (q : PacketQueue.t) :
  let s := StatisticsCollector.sample elapsed flows q in
  let entries := StatisticsCollector.flowStats s in
  entries = map (StatisticsCollector.collectFlowStat elapsed) flows /\
  map StatisticsCollector.flowId entries = map Flow.getFlowId flows /\
  StatisticsCollector.queueOccupancy s = PacketQueue.size q /\
  StatisticsCollector.totalBytesTransmitted s
    = wrap64 (StatisticsCollector.sum_bytes entries) /\
  StatisticsCollector.totalPacketsTransmitted s
    = wrap64 (StatisticsCollector.sum_packets entries) /\
  (u64 (StatisticsCollector.sum_bytes entries) ->
   StatisticsCollector.totalBytesTransmitted s
     = StatisticsCollector.sum_bytes entries).
Proof.
  intros s entries. unfold entries, s, StatisticsCollector.sample.
  change (@nil StatisticsCollector.FlowStats, 0, 0)
    with (@nil StatisticsCollector.FlowStats, wrap64 0, wrap64 0).
  rewrite fold_accumulate. cbn [app Z.add].
  cbn [StatisticsCollector.flowStats StatisticsCollector.queueOccupancy
       StatisticsCollector.totalBytesTransmitted
       StatisticsCollector.totalPacketsTransmitted].
  split; [reflexivity |]. split; [rewrite map_map; reflexivity |].
  split; [reflexivity |]. split; [reflexivity |]. split; [reflexivity |].
  intros Hu. apply wrap64_small. exact Hu.
Qed.

Lemma tryDequeue_sizes (P : Packet.t -> Prop) (q : PacketQueue.t) :
  Forall P (PacketQueue.queue_ q) ->
  match PacketQueue.tryDequeue q with
  | (Some p, q') => P p /\ Forall P (PacketQueue.queue_ q')
  | (None, q') => q' = q
  end.
Proof.
  intros Hall. destruct (PacketQueue.queue_ q) eqn:E.
  - unfold PacketQueue.tryDequeue. rewrite E. reflexivity.
  - assert (Hne : PacketQueue.queue_ q <> []) by (rewrite E; discriminate).
    rewrite <- E in Hall.
    rewrite (PacketQueueFacts.tryDequeue_nonempty q Hne).
    destruct (PacketQueueFacts.take_nonempty q Hne) as (p & rest & Htop & Htake).
    rewrite Htake. cbn [PacketQueue.with_queue PacketQueue.queue_].
    apply PacketQueueFacts.top_pop_perm in Htop.
    assert (Hall' : Forall P (p :: rest)).
    { apply Forall_forall. intros x Hx. rewrite Forall_forall in Hall. apply Hall.
      apply Permutation_in with (p :: rest); [symmetry; exact Htop | exact Hx]. }
    inversion Hall'; auto.
Qed.

Lemma await_budget (polls : list (bool * Z)) (size t0 t1 T : Z) (tb : TokenBucket.t) :
  TokenBucket.wf tb -> u32 size ->
  TokenBucket.lastUpdate_ tb <= t0 ->
  nondecreasing t0 (map snd polls) t1 -> t1 <= T ->
  let r := TrafficShaper.await polls size tb in
  match fst r with TrafficShaper.Granted => size | _ => 0 end
    + TokenBucket.budget (snd r) T <= TokenBucket.budget tb T /\
  TokenBucket.wf (snd r) /\
  TokenBucket.lastUpdate_ (snd r) <= t1 /\
  (fst r = TrafficShaper.Cancelled -> exists now, In (false, now) polls).
Proof.
  intros Hwf Hsize. revert t0 tb Hwf.
  induction polls as [| [running now] rest IH]; intros t0 tb Hwf Hl Hts HT;
    cbn [map snd nondecreasing] in Hts.
  - cbn [TrafficShaper.await fst snd].
    split; [lia | split; [exact Hwf | split; [lia | discriminate]]].
  - destruct Hts as [H0 Hrest].
    pose proof (TokenBucketLaws.nondecreasing_le _ _ _ Hrest) as Hnow.
    cbn [TrafficShaper.await]. destruct running.
    + destruct (TokenBucketLaws.step_budget (TokenBucket.Consume now size) T tb Hwf Hsize)
        as (Hb & _ & Hwf' & Hl'); cbn [TokenBucket.call_time]; try lia.
      cbn [TokenBucket.granted TokenBucket.step TokenBucket.call_time] in *.
      destruct (TokenBucket.consume now size tb) as [ok tb'] eqn:E. cbn [fst snd] in *.
      destruct ok; cbn [fst snd].
      * split; [lia | split; [exact Hwf' | split; [lia | discriminate]]].
      * destruct (IH now tb' Hwf' Hl' Hrest HT) as (Hb2 & Hwf2 & Hl2 & Hc2).
        split; [lia | split; [exact Hwf2 | split; [lia |]]].
        intros Hc. destruct (Hc2 Hc) as [t Ht]. exists t. right. exact Ht.
    + cbn [fst snd]. split; [lia | split; [exact Hwf | split; [lia |]]].
      intros _. exists now. left. reflexivity.
Qed.

(** *** The shaper and the bucket *)

Import TrafficShaper.

Lemma pass_bound (i : pass_input) (w : world) (t0 t1 T : Z) :
  TokenBucket.wf (bucket w) ->
  Forall (fun p => u32 (size_ p)) (PacketQueue.queue_ (queue w)) ->
  0 <= bytesTransmitted_ (shaper w) ->
  stop_is_final i ->
  TokenBucket.lastUpdate_ (bucket w) <= t0 ->
  nondecreasing t0 (map snd (polls i)) t1 -> t1 <= T ->
  let w' := snd (pass i w) in
  bytesTransmitted_ (shaper w') + TokenBucket.budget (bucket w') T
    <= bytesTransmitted_ (shaper w) + TokenBucket.budget (bucket w) T /\
  TokenBucket.wf (bucket w') /\
  Forall (fun p => u32 (size_ p)) (PacketQueue.queue_ (queue w')) /\
  0 <= bytesTransmitted_ (shaper w') /\
  TokenBucket.lastUpdate_ (bucket w') <= t1.
Proof.
  intros Hwf Hsizes Hbytes Hstop Hl Hts HT.
  pose proof (TokenBucketLaws.nondecreasing_le _ _ _ Hts) as H01.
  pose proof (tryDequeue_sizes _ _ Hsizes) as Htry.
  unfold pass. destruct (PacketQueue.tryDequeue (queue w)) as [[p |] q'].
  - destruct Htry as [Hp Hq'].
    pose proof (await_budget (polls i) (getSize p) t0 t1 T (bucket w) Hwf Hp Hl Hts HT)
      as (Hb & Hwf' & Hl' & Hc).
    destruct Hp as [Hp0 Hp1]. unfold getSize in *.
    destruct (await (polls i) (size_ p) (bucket w)) as [a tb]. cbn [fst snd] in *.
    destruct a.
    + destruct (running_after i); cbn [negb].
      * destruct (transmissionTimeMicros (size_ p) (linkCapacity_ (shaper w)));
          cbn [snd with_queue_bucket shaper bucket queue bytesTransmitted_].
        -- pose proof (wrap64_range (bytesTransmitted_ (shaper w) + size_ p)) as [Hr0 _].
           pose proof (TokenBucketLaws.wrap64_le (bytesTransmitted_ (shaper w) + size_ p)
                         ltac:(lia)).
           split; [lia | split; [exact Hwf' | split; [exact Hq' | split; lia]]].
        -- split; [lia | split; [exact Hwf' | split; [exact Hq' | split; lia]]].
      * cbn [snd with_queue_bucket shaper bucket queue].
        split; [lia | split; [exact Hwf' | split; [exact Hq' | split; lia]]].
    + assert (Hfalse : running_after i = false) by (apply Hstop, Hc; reflexivity).
      rewrite Hfalse. cbn [negb snd with_queue_bucket shaper bucket queue].
      split; [lia | split; [exact Hwf' | split; [exact Hq' | split; lia]]].
    + cbn [snd with_queue_bucket shaper bucket queue].
      split; [lia | split; [exact Hwf' | split; [exact Hq' | split; lia]]].
  - subst q'. cbn [snd with_queue_bucket shaper bucket queue].
    split; [lia | split; [exact Hwf | split; [exact Hsizes | split; lia]]].
Qed.

Lemma simulate_cons (e : event) (es : list event) (w : world) :
  simulate (e :: es) w = simulate es (react e w).
Proof. reflexivity. Qed.

Lemma simulate_bound (es : list event) (w : world) (t0 T : Z) :
  TokenBucket.wf (bucket w) ->
  Forall (fun p => u32 (size_ p)) (PacketQueue.queue_ (queue w)) ->
  0 <= bytesTransmitted_ (shaper w) ->
  Forall event_ok es ->
  TokenBucket.lastUpdate_ (bucket w) <= t0 ->
  nondecreasing t0 (poll_times es) T ->
  let w' := simulate es w in
  bytesTransmitted_ (shaper w') + TokenBucket.budget (bucket w') T
    <= bytesTransmitted_ (shaper w) + TokenBucket.budget (bucket w) T /\
  TokenBucket.wf (bucket w') /\
  0 <= bytesTransmitted_ (shaper w') /\
  TokenBucket.lastUpdate_ (bucket w') <= T.
Proof.
  revert w t0. induction es as [| e es IH]; intros w t0 Hwf Hsizes Hbytes Hok Hl Hts.
  - cbn in *. split; [lia | split; [exact Hwf | split; lia]].
  - inversion Hok as [| ? ? He Hes]; subst. rewrite simulate_cons.
    destruct e as [i | p]; cbn [poll_times flat_map] in Hts.
    + destruct (TokenBucketLaws.nondecreasing_app _ _ _ _ Hts) as (t1 & H01 & Ha & Hb).
      pose proof (TokenBucketLaws.nondecreasing_le _ _ _ Hb) as H1T.
      destruct (pass_bound i w t0 t1 T Hwf Hsizes Hbytes He Hl Ha H1T)
        as (Hstep & Hwf' & Hsizes' & Hbytes' & Hl').
      destruct (IH (react (Pass i) w) t1 Hwf' Hsizes' Hbytes' Hes Hl' Hb)
        as (Hrest & Hwf'' & Hbytes'' & Hl'').
      cbn [react] in *.
      split; [lia | split; [exact Hwf'' | split; [exact Hbytes'' | exact Hl'']]].
    + cbn [app] in Hts. cbn [event_ok] in He.
      assert (Hsizes' : Forall (fun p => u32 (size_ p))
                          (PacketQueue.queue_ (queue (react (Arrival p) w)))).
      { cbn [react queue]. unfold PacketQueue.enqueue.
        destruct (PacketQueue.maxSize_ (queue w) <=? PacketQueue.currentSize_ (queue w));
          cbn [snd PacketQueue.with_dropped PacketQueue.with_queue PacketQueue.queue_];
          [exact Hsizes |].
        unfold PacketQueue.push. apply Forall_app. split; [exact Hsizes |].
        constructor; [exact He | constructor]. }
      destruct (IH (react (Arrival p) w) t0 Hwf Hsizes' Hbytes Hes Hl Hts)
        as (Hrest & Hwf'' & Hbytes'' & Hl'').
      cbn [react bucket shaper] in *.
      split; [lia | split; [exact Hwf'' | split; [exact Hbytes'' | exact Hl'']]].
Qed.

(** X10. The rate bound, end to end. While the shaper makes its passes and
    packets arrive, with clock readings that do not go back and [running_]
    not set again once cleared, the bytes the shaper has transmitted grow by
    at most the tokens the bucket held at the start plus
    [rate * elapsed_us / 10^6]: it never transmits a packet it was not
    granted the tokens for. *)
Theorem shaper_within_rate (es : list event) (w : world) (T : Z) :
  TokenBucket.wf (bucket w) ->
  Forall (fun p => u32 (size_ p)) (PacketQueue.queue_ (queue w)) ->
  0 <= bytesTransmitted_ (shaper w) ->
  Forall event_ok es ->
  nondecreasing (TokenBucket.lastUpdate_ (bucket w)) (poll_times es) T ->
  0 <= bytesTransmitted_ (shaper (simulate es w))
    <= bytesTransmitted_ (shaper w)
       + TokenBucket.tokens_ (bucket w)
       + TokenBucket.rate_ (bucket w)
         * Chrono.duration_cast_us (T - TokenBucket.lastUpdate_ (bucket w))
         / 1000000.
Proof.
  intros Hwf Hsizes Hbytes Hok Hts.
  destruct (simulate_bound es w _ T Hwf Hsizes Hbytes Hok (Z.le_refl _) Hts)
    as (Hb & Hwf' & Hbytes' & Hl').
  pose proof (TokenBucketLaws.budget_nonneg T _ Hwf' Hl') as Hfin.
  destruct Hwf' as (_ & _ & [Ht0 _]).
  unfold TokenBucket.budget at 2 in Hb. lia.
Qed.

(** An instance: a bucket of 3000 tokens at 1 byte per microsecond and
    three packets of 1500 bytes, the second and the third granted after a
    refill each; 4500 bytes are transmitted within 3000 + 2500. *)
Lemma shaper_within_rate_witness :
  let p := fun n => Packet 1 1500 MEDIUM n in
  let q := PacketQueue.run
             [PacketQueue.Enqueue (p 1); PacketQueue.Enqueue (p 2);
              PacketQueue.Enqueue (p 3)] (PacketQueue.PacketQueue 10) in
  let w := mkWorld [] q (TokenBucket.TokenBucket 1000000 3000 0)
                   (TrafficShaper 10000000) in
  let es := [Pass (mkInput [(true, 0)] true 1200000);
             Pass (mkInput [(true, 1200000)] true 2400000);
             Pass (mkInput [(true, 2400000); (true, 2500000)] true 3700000)] in
  bytesTransmitted_ (shaper (simulate es w)) = 4500 /\
  bytesTransmitted_ (shaper (simulate es w)) <= 0 + 3000 + 2500.
Proof.
  intros p q w es.
  assert (Hwf : TokenBucket.wf (bucket w))
    by (unfold TokenBucket.wf, u64; rewrite two64_eq; cbn; lia).
  assert (Hu : u32 1500) by (unfold u32; rewrite two32_eq; lia).
  assert (Hsizes : Forall (fun p => u32 (size_ p)) (PacketQueue.queue_ (queue w)))
    by (repeat (apply Forall_cons; [exact Hu |]); apply Forall_nil).
  assert (Hbytes : 0 <= bytesTransmitted_ (shaper w)) by (cbn; lia).
  assert (Hok : Forall event_ok es).
  { repeat (apply Forall_cons;
            [intros [now Hin]; cbn in Hin;
             repeat (destruct Hin as [Hin | Hin]; [discriminate Hin |]);
             destruct Hin |]).
    apply Forall_nil. }
  assert (Hts : nondecreasing (TokenBucket.lastUpdate_ (bucket w))
                  (poll_times es) 2500000) by (cbn; lia).
  destruct (shaper_within_rate es w 2500000 Hwf Hsizes Hbytes Hok Hts) as [_ H].
  split; [reflexivity | exact H].
Defined.

(** *** The shaper and the flows *)

Lemma sum_flow_bytes_nonneg (store : list Flow.t) :
  Forall Flow.wf store -> 0 <= sum_flow_bytes store.
Proof.
  induction 1 as [| f store (_ & _ & [Hb _]) _ IH]; cbn [sum_flow_bytes fold_right].
  - lia.
  - fold (sum_flow_bytes store). lia.
Qed.

Lemma recordTransmission_wf (size : Z) (delay : float) (f : Flow.t) :
  Flow.wf f -> Flow.wf (Flow.recordTransmission size delay f).
Proof.
  intros (Hs & Hd & Hb). unfold Flow.wf, Flow.recordTransmission.
  cbn [Flow.with_counters Flow.packetsSent_ Flow.packetsDropped_ Flow.bytesTransmitted_].
  split; [exact Hs | split; [exact Hd | apply wrap64_range]].
Qed.

Lemma update_flow_length (addr : nat) (g : Flow.t -> Flow.t) (store : list Flow.t) :
  length (update_flow addr g store) = length store.
Proof.
  revert addr. induction store as [| f store IH]; intros [| k]; cbn; auto.
Qed.

Lemma update_flow_wf (addr : nat) (size : Z) (delay : float) (store : list Flow.t) :
  Forall Flow.wf store ->
  Forall Flow.wf (update_flow addr (Flow.recordTransmission size delay) store).
Proof.
  intros H. revert addr. induction H as [| f store Hf Hstore IH]; intros [| k];
    cbn [update_flow]; constructor; auto using recordTransmission_wf.
Qed.

(** Recording a transmission adds at most its size to the flows' bytes, and
    exactly its size when the flow exists and nothing wraps. *)
Lemma update_flow_sum (addr : nat) (size : Z) (delay : float) (store : list Flow.t) :
  Forall Flow.wf store -> 0 <= size ->
  sum_flow_bytes (update_flow addr (Flow.recordTransmission size delay) store)
    <= sum_flow_bytes store + size /\
  ((addr < length store)%nat -> sum_flow_bytes store + size < two64 ->
   sum_flow_bytes (update_flow addr (Flow.recordTransmission size delay) store)
     = sum_flow_bytes store + size).
Proof.
  intros H Hsize. revert addr.
  induction H as [| f store Hf Hstore IH]; intros addr.
  - destruct addr; cbn; split; try lia; intros; lia.
  - pose proof (sum_flow_bytes_nonneg store Hstore) as Hrest.
    destruct Hf as (_ & _ & [Hb0 Hb1]).
    destruct addr as [| k]; cbn [update_flow sum_flow_bytes fold_right length];
      fold (sum_flow_bytes store).
    + unfold Flow.recordTransmission.
      cbn [Flow.with_counters Flow.bytesTransmitted_].
      pose proof (TokenBucketLaws.wrap64_le (Flow.bytesTransmitted_ f + size) ltac:(lia)).
      split; [lia |].
      intros _ Hroom. rewrite wrap64_small by (unfold u64; lia). lia.
    + fold (sum_flow_bytes (update_flow k (Flow.recordTransmission size delay) store)).
      destruct (IH k) as [Hle Heq]. split; [lia |].
      intros Hk Hroom. rewrite Heq; lia.
Qed.

Lemma pass_account (i : pass_input) (w : world) (t0 t1 T : Z) :
  TokenBucket.wf (bucket w) ->
  Forall (fun p => u32 (size_ p)) (PacketQueue.queue_ (queue w)) ->
  0 <= bytesTransmitted_ (shaper w) ->
  stop_is_final i ->
  TokenBucket.lastUpdate_ (bucket w) <= t0 ->
  nondecreasing t0 (map snd (polls i)) t1 -> t1 <= T ->
  Forall Flow.wf (flows w) ->
  bytesTransmitted_ (shaper w) + TokenBucket.budget (bucket w) T < two64 ->
  let w' := snd (pass i w) in
  Forall Flow.wf (flows w') /\
  flows_ (shaper w') = flows_ (shaper w) /\
  length (flows w') = length (flows w) /\
  (forall p, In p (PacketQueue.queue_ (queue w')) ->
             In p (PacketQueue.queue_ (queue w))) /\
  bytesTransmitted_ (shaper w) - sum_flow_bytes (flows w)
    <= bytesTransmitted_ (shaper w') - sum_flow_bytes (flows w') /\
  ((forall p, In p (PacketQueue.queue_ (queue w)) -> registered w p) ->
   sum_flow_bytes (flows w) <= bytesTransmitted_ (shaper w) ->
   bytesTransmitted_ (shaper w') - sum_flow_bytes (flows w')
     = bytesTransmitted_ (shaper w) - sum_flow_bytes (flows w)).
Proof.
  intros Hwf Hsizes Hbytes Hstop Hl Hts HT Hflows Hroom.
  assert (Hin : Forall (fun p => In p (PacketQueue.queue_ (queue w)))
                       (PacketQueue.queue_ (queue w)))
    by (apply Forall_forall; auto).
  pose proof (tryDequeue_sizes _ _ Hsizes) as Htry.
  pose proof (tryDequeue_sizes _ _ Hin) as Htry'.
  unfold pass. destruct (PacketQueue.tryDequeue (queue w)) as [[p |] q'].
  - destruct Htry as [Hp _]. destruct Htry' as [Hpin Hq'].
    rewrite Forall_forall in Hq'.
    pose proof (await_budget (polls i) (getSize p) t0 t1 T (bucket w) Hwf Hp Hl Hts HT)
      as (Hb & Hwf' & Hl' & Hc).
    destruct Hp as [Hp0 Hp1]. unfold getSize in *.
    destruct (await (polls i) (size_ p) (bucket w)) as [a tb]. cbn [fst snd] in *.
    pose proof (TokenBucketLaws.budget_nonneg T tb Hwf' ltac:(lia)) as Hbn.
    destruct Hwf' as (_ & _ & [Htok0 _]).
    assert (Hsame :
      let w1 := with_queue_bucket w q' tb in
      Forall Flow.wf (flows w1) /\
      flows_ (shaper w1) = flows_ (shaper w) /\
      length (flows w1) = length (flows w) /\
      (forall p0, In p0 (PacketQueue.queue_ (queue w1)) ->
                  In p0 (PacketQueue.queue_ (queue w))) /\
      bytesTransmitted_ (shaper w) - sum_flow_bytes (flows w)
        <= bytesTransmitted_ (shaper w1) - sum_flow_bytes (flows w1) /\
      ((forall p0, In p0 (PacketQueue.queue_ (queue w)) -> registered w p0) ->
       sum_flow_bytes (flows w) <= bytesTransmitted_ (shaper w) ->
       bytesTransmitted_ (shaper w1) - sum_flow_bytes (flows w1)
         = bytesTransmitted_ (shaper w) - sum_flow_bytes (flows w))).
    { cbn [with_queue_bucket flows shaper queue].
      split; [exact Hflows | split; [reflexivity | split; [reflexivity |
        split; [exact Hq' | split; [lia | intros; reflexivity]]]]]. }
    destruct a.
    + destruct (running_after i); cbn [negb]; [| exact Hsame].
      destruct (transmissionTimeMicros (size_ p) (linkCapacity_ (shaper w)));
        [| exact Hsame].
      cbn [snd flows shaper queue bytesTransmitted_ flows_].
      rewrite (wrap64_small (bytesTransmitted_ (shaper w) + size_ p))
        by (unfold u64; lia).
      unfold getFlowId, setTransmissionTime; cbn [flowId_].
      destruct (flows_ (shaper w) (flowId_ p)) as [addr |] eqn:Ereg.
      * destruct (update_flow_sum addr (size_ p)
                    (duration_ms
                       (getTransmissionTime (setTransmissionTime (tx i) p)
                        - getCreationTime (setTransmissionTime (tx i) p)))
                    (flows w) Hflows Hp0) as [Hle Heq].
        unfold getTransmissionTime, getCreationTime, setTransmissionTime in *;
          cbn [transmissionTime_ creationTime_] in *.
        split; [apply update_flow_wf; exact Hflows |].
        split; [reflexivity |]. split; [apply update_flow_length |].
        split; [exact Hq' |]. split; [lia |].
        intros Hreg Hsum. destruct (Hreg p Hpin) as (addr' & Hreg' & Haddr).
        rewrite Ereg in Hreg'. injection Hreg' as <-.
        rewrite Heq; [lia | exact Haddr | lia].
      * split; [exact Hflows |]. split; [reflexivity |]. split; [reflexivity |].
        split; [exact Hq' |]. split; [lia |].
        intros Hreg _. destruct (Hreg p Hpin) as (addr' & Hreg' & _).
        rewrite Ereg in Hreg'. discriminate.
    + assert (Hfalse : running_after i = false) by (apply Hstop, Hc; reflexivity).
      rewrite Hfalse. exact Hsame.
    + exact Hsame.
  - subst q'. cbn [snd with_queue_bucket flows shaper queue].
    split; [exact Hflows | split; [reflexivity | split; [reflexivity |
      split; [auto | split; [lia | intros; reflexivity]]]]].
Qed.

Lemma simulate_account (es : list event) (w : world) (t0 T : Z) :
  TokenBucket.wf (bucket w) ->
  Forall (fun p => u32 (size_ p)) (PacketQueue.queue_ (queue w)) ->
  0 <= bytesTransmitted_ (shaper w) ->
  Forall event_ok es ->
  TokenBucket.lastUpdate_ (bucket w) <= t0 ->
  nondecreasing t0 (poll_times es) T ->
  Forall Flow.wf (flows w) ->
  bytesTransmitted_ (shaper w) + TokenBucket.budget (bucket w) T < two64 ->
  let w' := simulate es w in
  bytesTransmitted_ (shaper w) - sum_flow_bytes (flows w)
    <= bytesTransmitted_ (shaper w') - sum_flow_bytes (flows w') /\
  ((forall p, In p (PacketQueue.queue_ (queue w) ++ arrivals es) -> registered w p) ->
   sum_flow_bytes (flows w) <= bytesTransmitted_ (shaper w) ->
   bytesTransmitted_ (shaper w') - sum_flow_bytes (flows w')
     = bytesTransmitted_ (shaper w) - sum_flow_bytes (flows w)).
Proof.
  revert w t0. induction es as [| e es IH];
    intros w t0 Hwf Hsizes Hbytes Hok Hl Hts Hflows Hroom.
  - cbn [simulate fold_left]. split; [lia | intros; reflexivity].
  - inversion Hok as [| ? ? He Hes]; subst. rewrite simulate_cons.
    destruct e as [i | p]; cbn [poll_times flat_map] in Hts.
    + destruct (TokenBucketLaws.nondecreasing_app _ _ _ _ Hts) as (t1 & H01 & Ha & Hb).
      pose proof (TokenBucketLaws.nondecreasing_le _ _ _ Hb) as H1T.
      destruct (pass_bound i w t0 t1 T Hwf Hsizes Hbytes He Hl Ha H1T)
        as (Hstep & Hwf' & Hsizes' & Hbytes' & Hl').
      destruct (pass_account i w t0 t1 T Hwf Hsizes Hbytes He Hl Ha H1T Hflows Hroom)
        as (Hflows' & Hreg' & Hlen' & Hsub & Hd & Heq).
      cbn [react].
      destruct (IH (snd (pass i w)) t1 Hwf' Hsizes' Hbytes' Hes Hl' Hb Hflows')
        as [Hd2 Heq2]; [lia |].
      split; [lia |].
      intros Hreg Hsum.
      rewrite Heq2.
      * apply Heq; [| exact Hsum].
        intros p Hp. apply Hreg. apply in_or_app. left. exact Hp.
      * intros p Hp. cbn [arrivals flat_map app] in Hreg.
        assert (Hr : registered w p).
        { apply Hreg. apply in_app_or in Hp. apply in_or_app.
          destruct Hp as [Hp | Hp]; [left; apply Hsub; exact Hp | right; exact Hp]. }
        destruct Hr as (addr & Hr1 & Hr2). exists addr.
        rewrite Hreg', Hlen'. split; assumption.
      * lia.
    + cbn [app] in Hts. cbn [event_ok] in He.
      assert (Hq : forall x,
                In x (PacketQueue.queue_ (queue (react (Arrival p) w))) ->
                In x (PacketQueue.queue_ (queue w)) \/ x = p).
      { cbn [react queue]. unfold PacketQueue.enqueue.
        destruct (PacketQueue.maxSize_ (queue w) <=? PacketQueue.currentSize_ (queue w));
          cbn [snd PacketQueue.with_dropped PacketQueue.with_queue PacketQueue.queue_];
          [auto |].
        unfold PacketQueue.push. intros x Hx. apply in_app_or in Hx.
        destruct Hx as [Hx | [Hx | []]]; auto. }
      assert (Hsizes' : Forall (fun p => u32 (size_ p))
                          (PacketQueue.queue_ (queue (react (Arrival p) w)))).
      { apply Forall_forall. intros x Hx. destruct (Hq x Hx) as [Hx' | ->];
          [| exact He]. rewrite Forall_forall in Hsizes. apply Hsizes. exact Hx'. }
      destruct (IH (react (Arrival p) w) t0 Hwf Hsizes' Hbytes Hes Hl Hts Hflows Hroom)
        as [Hd2 Heq2].
      cbn [react flows shaper] in *.
      split; [exact Hd2 |].
      intros Hreg Hsum. apply Heq2; [| exact Hsum].
      intros x Hx. cbn [arrivals flat_map app] in Hreg.
      assert (Hr : registered w x).
      { apply Hreg. apply in_app_or in Hx. apply in_or_app.
        destruct Hx as [Hx | Hx]; [| right; right; exact Hx].
        destruct (Hq x Hx) as [Hx' | ->]; [left; exact Hx' | right; left; reflexivity]. }
      exact Hr.
Qed.

Lemma update_flow_nth (addr a : nat) (g : Flow.t -> Flow.t) (store : list Flow.t) :
  nth_error (update_flow addr g store) a =
    if Nat.eqb a addr then option_map g (nth_error store a) else nth_error store a.
Proof.
  revert addr a. induction store as [| x store IH]; intros [| k] [| a];
    cbn [update_flow nth_error Nat.eqb option_map]; try reflexivity.
  - destruct (Nat.eqb a k); reflexivity.
  - apply IH.
Qed.

(** What a pass that transmits does to the counters. *)
Lemma pass_transmitted (i : pass_input) (w w1 : world) (p : Packet.t) (micros : Z) :
  pass i w = (Transmitted p micros, w1) ->
  transmissionTime_ p = tx i /\
  bytesTransmitted_ (shaper w1) = wrap64 (bytesTransmitted_ (shaper w) + size_ p) /\
  packetsTransmitted_ (shaper w1) = wrap64 (packetsTransmitted_ (shaper w) + 1) /\
  flows_ (shaper w1) = flows_ (shaper w) /\
  flows w1 =
    match flows_ (shaper w) (flowId_ p) with
    | Some addr =>
        update_flow addr
          (Flow.recordTransmission (size_ p) (duration_ms (tx i - creationTime_ p)))
          (flows w)
    | None => flows w
    end.
Proof.
  unfold pass. destruct (PacketQueue.tryDequeue (queue w)) as [[p0 |] q']; [| discriminate].
  destruct (await (polls i) (getSize p0) (bucket w)) as [a tb].
  destruct a; try discriminate;
    (destruct (running_after i); cbn [negb]; [| discriminate];
     destruct (transmissionTimeMicros (getSize p0) (linkCapacity_ (shaper w)));
       [| discriminate];
     intros H; injection H as <- _ <-;
     cbn [shaper flows bytesTransmitted_ packetsTransmitted_ flows_];
     unfold getSize, getFlowId, getTransmissionTime, getCreationTime, setTransmissionTime;
     cbn [size_ flowId_ transmissionTime_ creationTime_];
     repeat split; reflexivity).
Qed.

(** X11. The flows' byte counters against the shaper's. Starting from
    counters that agree, and as long as the rate bound keeps the shaper's
    counter below [2^64]: the bytes recorded in the flows never exceed the
    bytes the shaper has transmitted, and they are equal when the flow id of
    every packet, buffered or arriving, is registered with the shaper. In
    any pass that transmits a packet the shaper counts the packet and its
    bytes; when the packet's flow id is not registered no flow is changed;
    when it is registered the transmission is recorded in the flow at the
    registered place and in no other. *)
Theorem flow_bytes_add_up (es : list event) (w : world) (T : Z) :
  TokenBucket.wf (bucket w) ->
  Forall (fun p => u32 (size_ p)) (PacketQueue.queue_ (queue w)) ->
  Forall Flow.wf (flows w) ->
  bytesTransmitted_ (shaper w) = sum_flow_bytes (flows w) ->
  Forall event_ok es ->
  nondecreasing (TokenBucket.lastUpdate_ (bucket w)) (poll_times es) T ->
  bytesTransmitted_ (shaper w) + TokenBucket.budget (bucket w) T < two64 ->
  let w' := simulate es w in
  sum_flow_bytes (flows w') <= bytesTransmitted_ (shaper w') /\
  ((forall p, In p (PacketQueue.queue_ (queue w) ++ arrivals es) -> registered w p) ->
   sum_flow_bytes (flows w') = bytesTransmitted_ (shaper w')) /\
  (forall i w0 p micros w1,
     pass i w0 = (Transmitted p micros, w1) ->
     bytesTransmitted_ (shaper w1)
       = wrap64 (bytesTransmitted_ (shaper w0) + size_ p) /\
     packetsTransmitted_ (shaper w1)
       = wrap64 (packetsTransmitted_ (shaper w0) + 1) /\
     (flows_ (shaper w0) (flowId_ p) = None -> flows w1 = flows w0) /\
     (forall addr, flows_ (shaper w0) (flowId_ p) = Some addr ->
        forall a,
          nth_error (flows w1) a =
            if Nat.eqb a addr
            then option_map
                   (Flow.recordTransmission (size_ p)
                      (duration_ms (tx i - creationTime_ p)))
                   (nth_error (flows w0) a)
            else nth_error (flows w0) a)).
Proof.
  intros Hwf Hsizes Hflows Hagree Hok Hts Hroom w'.
  pose proof (sum_flow_bytes_nonneg (flows w) Hflows) as Hsum0.
  destruct (simulate_account es w _ T Hwf Hsizes ltac:(lia) Hok (Z.le_refl _) Hts
              Hflows Hroom) as [Hd Heq].
  fold w' in Hd, Heq. split; [lia |]. split.
  - intros Hreg. specialize (Heq Hreg ltac:(lia)). lia.
  - intros i w0 p micros w1 Hpass.
    destruct (pass_transmitted i w0 w1 p micros Hpass) as (_ & Hb & Hp & _ & Hf).
    split; [exact Hb |]. split; [exact Hp |]. split.
    + intros Hnone. rewrite Hf, Hnone. reflexivity.
    + intros addr Hsome a. rewrite Hf, Hsome. apply update_flow_nth.
Qed.

(** An instance: one flow, registered under id 1; a packet of flow 1 and a
    packet of flow 2 are transmitted: 3000 bytes by the shaper's count, 1500
    by the flows'. *)
Lemma flow_bytes_add_up_witness :
  let q := PacketQueue.run
             [PacketQueue.Enqueue (Packet 1 1500 MEDIUM 1);
              PacketQueue.Enqueue (Packet 2 1500 MEDIUM 2)]
             (PacketQueue.PacketQueue 10) in
  let w := addFlow 0
             (mkWorld [Flow.Flow 1 Flow.CONSTANT_RATE 409600 MEDIUM] q
                      (TokenBucket.TokenBucket 1000000 3000 0)
                      (TrafficShaper 10000000)) in
  let es := [Pass (mkInput [(true, 0)] true 1200000);
             Pass (mkInput [(true, 1200000)] true 2400000)] in
  bytesTransmitted_ (shaper (simulate es w)) = 3000 /\
  sum_flow_bytes (flows (simulate es w)) = 1500 /\
  sum_flow_bytes (flows (simulate es w)) <= bytesTransmitted_ (shaper (simulate es w)).
Proof.
  intros q w es.
  assert (Hwf : TokenBucket.wf (bucket w))
    by (unfold TokenBucket.wf, u64; rewrite two64_eq; cbn; lia).
  assert (Hu : u32 1500) by (unfold u32; rewrite two32_eq; lia).
  assert (Hsizes : Forall (fun p => u32 (size_ p)) (PacketQueue.queue_ (queue w)))
    by (repeat (apply Forall_cons; [exact Hu |]); apply Forall_nil).
  assert (Hflows : Forall Flow.wf (flows w)).
  { apply Forall_cons; [| apply Forall_nil].
    unfold Flow.wf, u64. rewrite two64_eq. cbn. lia. }
  assert (Hagree : bytesTransmitted_ (shaper w) = sum_flow_bytes (flows w))
    by reflexivity.
  assert (Hok : Forall event_ok es).
  { repeat (apply Forall_cons;
            [intros [now Hin]; cbn in Hin;
             repeat (destruct Hin as [Hin | Hin]; [discriminate Hin |]);
             destruct Hin |]).
    apply Forall_nil. }
  assert (Hts : nondecreasing (TokenBucket.lastUpdate_ (bucket w))
                  (poll_times es) 1200000) by (cbn; lia).
  assert (Hroom : bytesTransmitted_ (shaper w)
                  + TokenBucket.budget (bucket w) 1200000 < two64)
    by (vm_compute; reflexivity).
  destruct (flow_bytes_add_up es w 1200000 Hwf Hsizes Hflows Hagree Hok Hts Hroom)
    as (H & _ & _).
  split; [reflexivity |]. split; [reflexivity | exact H].
Defined.

(** *** The life of the generator *)

(** X12. The generator's flag. A second [start] and a second [stop] do
    nothing. [stop] on a running generator clears the flag, leaves no thread
    and marks every flow inactive; as no call marks a flow active again, a
    generator started after a [stop] has a thread per flow whose loop
    condition is false from the first test: it generates nothing. A flow
    added while the generator runs gets no thread. *)
Theorem generator_lifecycle (g : TrafficGenerator.t) (flow : Flow.t) :
  let g1 := TrafficGenerator.start g in
  let g2 := TrafficGenerator.stop g1 in
  let g3 := TrafficGenerator.start g2 in
  TrafficGenerator.start g1 = g1 /\
  TrafficGenerator.stop g2 = g2 /\
  TrafficGenerator.running_ g2 = false /\
  TrafficGenerator.threads_ g2 = [] /\
  TrafficGenerator.running_ g3 = true /\
  length (TrafficGenerator.threads_ g3) = length (TrafficGenerator.flows_ g3) /\
  Forall (fun f => TrafficGenerator.keeps_going g3 f = false)
         (TrafficGenerator.flows_ g3) /\
  TrafficGenerator.threads_
    (TrafficGenerator.start (TrafficGenerator.addFlow flow g1))
    = TrafficGenerator.threads_ g1.
Proof.
  intros g1 g2 g3.
  assert (Hrun1 : TrafficGenerator.running_ g1 = true).
  { unfold g1, TrafficGenerator.start.
    destruct (TrafficGenerator.running_ g) eqn:E; [exact E | reflexivity]. }
  assert (Hg2 : g2 = TrafficGenerator.mk false
                       (map (Flow.setActive false) (TrafficGenerator.flows_ g1)) []).
  { unfold g2, TrafficGenerator.stop. rewrite Hrun1. reflexivity. }
  assert (Hg3 : g3 = TrafficGenerator.mk true
                       (map (Flow.setActive false) (TrafficGenerator.flows_ g1))
                       (seq 0 (length (map (Flow.setActive false)
                                             (TrafficGenerator.flows_ g1))))).
  { unfold g3. rewrite Hg2. reflexivity. }
  split; [unfold TrafficGenerator.start at 1; rewrite Hrun1; reflexivity |].
  split; [rewrite Hg2; reflexivity |].
  split; [rewrite Hg2; reflexivity |].
  split; [rewrite Hg2; reflexivity |].
  split; [rewrite Hg3; reflexivity |].
  split; [rewrite Hg3; cbn; apply length_seq |].
  split.
  - rewrite Hg3. cbn [TrafficGenerator.flows_].
    apply Forall_forall. intros f Hf. apply in_map_iff in Hf.
    destruct Hf as (f0 & <- & _). reflexivity.
  - unfold TrafficGenerator.start at 1.
    cbn [TrafficGenerator.addFlow TrafficGenerator.running_]. rewrite Hrun1.
    reflexivity.
Qed.

(** *** Packets and the capacity *)

Lemma await_oversize (polls : list (bool * Z)) (n : Z) (tb : TokenBucket.t) :
  TokenBucket.tokens_ tb <= TokenBucket.bucketSize_ tb ->
  TokenBucket.bucketSize_ tb < n ->
  fst (await polls n tb) <> Granted /\
  TokenBucket.tokens_ (snd (await polls n tb)) < n.
Proof.
  revert tb. induction polls as [| [running now] rest IH]; intros tb Hcap Hn.
  - cbn. split; [discriminate | lia].
  - cbn [await]. destruct running; [| cbn; split; [discriminate | lia]].
    pose proof (TokenBucketFacts.refill_le_capacity now tb Hcap) as Hle.
    unfold TokenBucket.consume.
    destruct (Z.leb_spec n (TokenBucket.tokens_ (TokenBucket.refill now tb))); [lia |].
    apply IH.
    + rewrite TokenBucketFacts.refill_bucketSize. exact Hle.
    + rewrite TokenBucketFacts.refill_bucketSize. exact Hn.
Qed.

Lemma await_oversize_polling (polls : list (bool * Z)) (n : Z) (tb : TokenBucket.t) :
  TokenBucket.tokens_ tb <= TokenBucket.bucketSize_ tb ->
  TokenBucket.bucketSize_ tb < n ->
  Forall (fun poll => fst poll = true) polls ->
  fst (await polls n tb) = Polling.
Proof.
  intros Hcap Hn Hall. revert tb Hcap Hn.
  induction Hall as [| [running t] rest Hr _ IH]; intros tb Hcap Hn; [reflexivity |].
  cbn [fst] in Hr. subst running. cbn [await].
  pose proof (TokenBucketFacts.refill_le_capacity t tb Hcap) as Hle.
  unfold TokenBucket.consume.
  destruct (Z.leb_spec n (TokenBucket.tokens_ (TokenBucket.refill t tb))); [lia |].
  apply IH; rewrite TokenBucketFacts.refill_bucketSize; assumption.
Qed.

(** X13. A packet larger than the bucket is never granted. Whatever calls
    came before and whenever it is tried, a [consume] of more bytes than the
    capacity returns false, and the shaper's wait for such a packet never
    ends with a grant, however many polls it makes: it ends only when
    [running_] is cleared. *)
Theorem oversize_never_granted (cs : list TokenBucket.call) (now n : Z)
  (polls : list (bool * Z)) (tb : TokenBucket.t) :
  TokenBucket.wf tb ->
  TokenBucket.tokens_ tb <= TokenBucket.bucketSize_ tb ->
  Forall TokenBucket.valid_call cs ->
  TokenBucket.bucketSize_ tb < n ->
  fst (TokenBucket.consume now n (TokenBucket.run cs tb)) = false /\
  fst (await polls n (TokenBucket.run cs tb)) <> Granted /\
  (Forall (fun poll => fst poll = true) polls ->
   fst (await polls n (TokenBucket.run cs tb)) = Polling).
Proof.
  intros Hwf Hcap Hcs Hn.
  destruct (TokenBucketFacts.run_invariant cs tb Hcs Hwf Hcap) as [Hwf' Hcap'].
  assert (Hsize : TokenBucket.bucketSize_ (TokenBucket.run cs tb)
                  = TokenBucket.bucketSize_ tb).
  { clear. revert tb. induction cs as [| c cs IH]; intros tb; [reflexivity |].
    change (TokenBucket.run (c :: cs) tb)
      with (TokenBucket.run cs (TokenBucket.step c tb)).
    rewrite IH. apply TokenBucketFacts.step_bucketSize. }
  set (s := TokenBucket.run cs tb) in *.
  assert (Hcap_s : TokenBucket.tokens_ s <= TokenBucket.bucketSize_ s) by lia.
  assert (Hn_s : TokenBucket.bucketSize_ s < n) by lia.
  split; [| split].
  - unfold TokenBucket.consume.
    pose proof (TokenBucketFacts.refill_le_capacity now s Hcap_s).
    destruct (Z.leb_spec n (TokenBucket.tokens_ (TokenBucket.refill now s)));
      [lia | reflexivity].
  - apply await_oversize; assumption.
  - intros Hall. apply await_oversize_polling; assumption.
Qed.

(** An instance: a bucket of 1000 bytes and a packet of 1500. *)
Lemma oversize_never_granted_witness :
  fst (TokenBucket.consume 9000000 1500
         (TokenBucket.run [TokenBucket.GetTokens 5000]
            (TokenBucket.TokenBucket 1000000 1000 0))) = false.
Proof.
  assert (Hwf : TokenBucket.wf (TokenBucket.TokenBucket 1000000 1000 0))
    by (unfold TokenBucket.wf, u64; rewrite two64_eq; cbn; lia).
  assert (Hcap : TokenBucket.tokens_ (TokenBucket.TokenBucket 1000000 1000 0)
                 <= TokenBucket.bucketSize_ (TokenBucket.TokenBucket 1000000 1000 0))
    by (cbn; lia).
  assert (Hcs : Forall TokenBucket.valid_call [TokenBucket.GetTokens 5000])
    by (apply Forall_cons; [exact I | apply Forall_nil]).
  assert (Hn : TokenBucket.bucketSize_ (TokenBucket.TokenBucket 1000000 1000 0) < 1500)
    by (cbn; lia).
  exact (proj1 (oversize_never_granted [TokenBucket.GetTokens 5000] 9000000 1500 []
                  (TokenBucket.TokenBucket 1000000 1000 0) Hwf Hcap Hcs Hn)).
Defined.

(** X14. A packet that fits is granted once the refill covers it. For a
    request of at most the capacity, at a time when the tokens at hand plus
    [rate * elapsed_us / 10^6] reach its size, with neither the product nor
    the sum passing [2^64], [consume] returns true. *)
Theorem granted_after_waiting (now n : Z) (tb : TokenBucket.t) :
  TokenBucket.wf tb ->
  TokenBucket.tokens_ tb <= TokenBucket.bucketSize_ tb ->
  n <= TokenBucket.bucketSize_ tb ->
  TokenBucket.lastUpdate_ tb <= now ->
  TokenBucket.rate_ tb
    * Chrono.duration_cast_us (now - TokenBucket.lastUpdate_ tb) < two64 ->
  TokenBucket.tokens_ tb + TokenBucket.spec_add now tb < two64 ->
  n <= TokenBucket.tokens_ tb + TokenBucket.spec_add now tb ->
  fst (TokenBucket.consume now n tb) = true.
Proof.
  intros (Hr & Hc & Ht) Hcap Hn Hnow Hprod Hsum Hcover.
  assert (Hadd : TokenBucket.tokensToAdd now tb = TokenBucket.spec_add now tb)
    by (apply TokenBucketFacts.tokensToAdd_exact; unfold u64 in *; lia).
  pose proof (TokenBucketFacts.tokensToAdd_range now tb) as Hrange.
  rewrite Hadd in Hrange.
  unfold TokenBucket.consume, TokenBucket.refill. rewrite Hadd.
  destruct (Z.ltb_spec 0 (TokenBucket.spec_add now tb)); cbn [TokenBucket.tokens_].
  - rewrite wrap64_small by (unfold u64 in *; lia).
    destruct (Z.leb_spec n (Z.min (TokenBucket.tokens_ tb + TokenBucket.spec_add now tb)
                                  (TokenBucket.bucketSize_ tb))); [reflexivity | lia].
  - destruct (Z.leb_spec n (TokenBucket.tokens_ tb)); [reflexivity | lia].
Qed.

(** An instance: an empty bucket at 1 byte per microsecond grants 1500 bytes
    after 1500 microseconds. *)
Lemma granted_after_waiting_witness :
  fst (TokenBucket.consume 1500000 1500 (TokenBucket.mk 1000000 3000 0 0)) = true.
Proof.
  assert (Hwf : TokenBucket.wf (TokenBucket.mk 1000000 3000 0 0))
    by (unfold TokenBucket.wf, u64; rewrite two64_eq; cbn; lia).
  apply (granted_after_waiting 1500000 1500 (TokenBucket.mk 1000000 3000 0 0) Hwf);
    cbn [TokenBucket.tokens_ TokenBucket.bucketSize_ TokenBucket.lastUpdate_
         TokenBucket.rate_]; try lia; vm_compute; congruence.
Defined.

(** *** Several producers *)

Lemma sums_nonneg (store : list Flow.t) :
  Forall Flow.wf store ->
  0 <= TrafficGenerator.sum_sent store /\ 0 <= TrafficGenerator.sum_dropped store.
Proof.
  induction 1 as [| f store ([Hs _] & [Hd _] & _) _ IH];
    cbn [TrafficGenerator.sum_sent TrafficGenerator.sum_dropped fold_right].
  - lia.
  - fold (TrafficGenerator.sum_sent store). fold (TrafficGenerator.sum_dropped store). lia.
Qed.

(** Replacing the flow at [idx] changes the sums by the change of that
    flow's counters. *)
Lemma put_sums (idx : nat) (f f' : Flow.t) (store : list Flow.t) :
  nth_error store idx = Some f ->
  TrafficGenerator.sum_sent (TrafficGenerator.put idx f' store)
    = TrafficGenerator.sum_sent store - Flow.packetsSent_ f + Flow.packetsSent_ f' /\
  TrafficGenerator.sum_dropped (TrafficGenerator.put idx f' store)
    = TrafficGenerator.sum_dropped store
      - Flow.packetsDropped_ f + Flow.packetsDropped_ f' /\
  (Forall Flow.wf store -> Flow.wf f' ->
   Forall Flow.wf (TrafficGenerator.put idx f' store)) /\
  length (TrafficGenerator.put idx f' store) = length store.
Proof.
  revert idx. induction store as [| x store IH]; intros [| k] H; cbn in H;
    try discriminate.
  - injection H as ->.
    cbn [TrafficGenerator.put TrafficGenerator.sum_sent
         TrafficGenerator.sum_dropped fold_right length].
    repeat split; try lia.
    intros Hall Hf'. inversion Hall; subst. constructor; assumption.
  - destruct (IH k H) as (Hs & Hd & Hw & Hl).
    cbn [TrafficGenerator.put TrafficGenerator.sum_sent
         TrafficGenerator.sum_dropped fold_right length].
    fold (TrafficGenerator.sum_sent (TrafficGenerator.put k f' store)).
    fold (TrafficGenerator.sum_dropped (TrafficGenerator.put k f' store)).
    fold (TrafficGenerator.sum_sent store). fold (TrafficGenerator.sum_dropped store).
    repeat split; try lia.
    intros Hall Hf'. inversion Hall; subst. constructor; auto.
Qed.

Lemma nth_error_wf (idx : nat) (f : Flow.t) (store : list Flow.t) :
  Forall Flow.wf store -> nth_error store idx = Some f ->
  Flow.wf f /\ Flow.packetsSent_ f <= TrafficGenerator.sum_sent store /\
  Flow.packetsDropped_ f <= TrafficGenerator.sum_dropped store.
Proof.
  intros Hall. revert idx. induction Hall as [| x store Hx Hstore IH]; intros [| k] H;
    cbn in H; try discriminate.
  - injection H as ->. destruct (sums_nonneg store Hstore) as [Hs Hd].
    cbn [TrafficGenerator.sum_sent TrafficGenerator.sum_dropped fold_right].
    fold (TrafficGenerator.sum_sent store). fold (TrafficGenerator.sum_dropped store).
    split; [exact Hx | lia].
  - destruct (IH k H) as (Hf & Hle & Hle'). destruct Hx as ([Hx0 _] & [Hx1 _] & _).
    cbn [TrafficGenerator.sum_sent TrafficGenerator.sum_dropped fold_right].
    fold (TrafficGenerator.sum_sent store). fold (TrafficGenerator.sum_dropped store).
    split; [exact Hf | lia].
Qed.

(** One turn of a producer, on any state of the queue. *)
Lemma iteration_effect (packetSize now : Z) (f : Flow.t) (q : PacketQueue.t) :
  Flow.wf f -> PacketQueue.inv q ->
  0 <= PacketQueue.currentSize_ q -> 0 <= PacketQueue.totalDropped_ q ->
  Flow.packetsSent_ f + 1 < two64 ->
  Flow.packetsDropped_ f + 1 < two64 ->
  PacketQueue.totalDropped_ q + 1 < two64 ->
  let s := TrafficGenerator.iteration packetSize now f q in
  Flow.wf (fst s) /\ PacketQueue.inv (snd s) /\
  Flow.packetsSent_ (fst s) = Flow.packetsSent_ f + 1 /\
  exists d : Z,
    0 <= d <= 1 /\
    Flow.packetsDropped_ (fst s) = Flow.packetsDropped_ f + d /\
    PacketQueue.totalDropped_ (snd s) = PacketQueue.totalDropped_ q + d /\
    PacketQueue.currentSize_ (snd s) = PacketQueue.currentSize_ q + (1 - d).
Proof.
  intros (Hs & Hd & Hb) Hinv Hsize0 Htd0 Hroom Hle Htd.
  unfold TrafficGenerator.iteration. cbn [Flow.generatePacket].
  set (p := Packet _ _ _ _).
  pose proof (PacketQueueFacts.enqueue_inv p q Hinv) as Hinv'.
  destruct Hinv as (Hlen & Hmaxle & Hmax).
  unfold PacketQueue.enqueue in *.
  destruct (Z.leb_spec (PacketQueue.maxSize_ q) (PacketQueue.currentSize_ q));
    cbn [fst snd] in *;
    (split; [| split; [exact Hinv' |]]);
    unfold Flow.wf, Flow.recordDrop;
    cbn [Flow.with_counters Flow.packetsSent_ Flow.packetsDropped_
         Flow.bytesTransmitted_ PacketQueue.with_dropped PacketQueue.with_queue
         PacketQueue.totalDropped_ PacketQueue.currentSize_];
    unfold u64 in *;
    rewrite ?(wrap64_small (Flow.packetsSent_ f + 1)) by (unfold u64; lia);
    rewrite ?(wrap64_small (Flow.packetsDropped_ f + 1)) by (unfold u64; lia);
    rewrite ?(wrap64_small (PacketQueue.totalDropped_ q + 1)) by (unfold u64; lia);
    rewrite ?(wrap64_small (PacketQueue.currentSize_ q + 1)) by (unfold u64; lia);
    try (repeat split; lia).
  - split; [reflexivity |]. exists 1. repeat split; lia.
  - split; [reflexivity |]. exists 0. repeat split; lia.
Qed.

Lemma react_shared_accounted (e : TrafficGenerator.shared_event)
  (store : list Flow.t) (q : PacketQueue.t) :
  TrafficGenerator.accounted_shared store q ->
  TrafficGenerator.sum_sent store + 1 < two64 ->
  let s := TrafficGenerator.react_shared e (store, q) in
  TrafficGenerator.accounted_shared (fst s) (snd s) /\
  length (fst s) = length store /\
  TrafficGenerator.sum_sent store <= TrafficGenerator.sum_sent (fst s)
    <= TrafficGenerator.sum_sent store + 1.
Proof.
  intros (Hwf & Hinv & Hdrop & Hsize0 & Hsum) Hroom.
  destruct (sums_nonneg store Hwf) as [Hs0 Hd0].
  destruct e as [idx packetSize now |]; cbn [TrafficGenerator.react_shared fst snd].
  - destruct (nth_error store idx) as [f |] eqn:E.
    + destruct (nth_error_wf idx f store Hwf E) as (Hf & Hfs & Hfd).
      destruct (iteration_effect packetSize now f q Hf Hinv Hsize0)
        as (Hf' & Hinv' & Hsent & d & Hd & Hdf & Hdq & Hsz); try lia.
      destruct (TrafficGenerator.iteration packetSize now f q) as [f' q'].
      cbn [fst snd] in *.
      destruct (put_sums idx f f' store E) as (Hps & Hpd & Hpw & Hpl).
      split; [| split; [exact Hpl | lia]].
      split; [apply Hpw; assumption |]. split; [exact Hinv' |].
      repeat split; lia.
    + cbn [fst snd]. split; [| split; [reflexivity | lia]].
      split; [exact Hwf |]. split; [exact Hinv |]. repeat split; lia.
  - pose proof (PacketQueueFacts.step_inv PacketQueue.TryDequeue q Hinv) as Hinv'.
    cbn [PacketQueue.step] in Hinv'.
    destruct (tryDequeue_counters q Hinv) as [Hq1 Hq2].
    split; [| split; [reflexivity | lia]].
    split; [exact Hwf |]. split; [exact Hinv' |]. repeat split; lia.
Qed.

Lemma simulate_shared_accounted (es : list TrafficGenerator.shared_event)
  (store : list Flow.t) (q : PacketQueue.t) :
  TrafficGenerator.accounted_shared store q ->
  TrafficGenerator.sum_sent store + Z.of_nat (length es) < two64 ->
  let s := TrafficGenerator.simulate_shared es (store, q) in
  TrafficGenerator.accounted_shared (fst s) (snd s) /\
  length (fst s) = length store /\
  TrafficGenerator.sum_sent store <= TrafficGenerator.sum_sent (fst s)
    <= TrafficGenerator.sum_sent store + Z.of_nat (length es).
Proof.
  revert store q. induction es as [| e es IH]; intros store q Hacc Hroom.
  - cbn [TrafficGenerator.simulate_shared fold_left fst snd length].
    split; [exact Hacc | split; [reflexivity | lia]].
  - cbn [length] in Hroom.
    change (TrafficGenerator.simulate_shared (e :: es) (store, q))
      with (TrafficGenerator.simulate_shared es
              (TrafficGenerator.react_shared e (store, q))).
    destruct (react_shared_accounted e store q Hacc) as (Hacc1 & Hlen1 & Hs1); [lia |].
    destruct (TrafficGenerator.react_shared e (store, q)) as [store1 q1].
    cbn [fst snd] in *.
    destruct (IH store1 q1 Hacc1) as (Hacc2 & Hlen2 & Hs2); [lia |].
    cbn [length].
    split; [exact Hacc2 | split; [congruence | lia]].
Qed.

Lemma fresh_sums (store : list Flow.t) :
  Forall (fun f => Flow.packetsSent_ f = 0 /\ Flow.packetsDropped_ f = 0 /\
                   u64 (Flow.bytesTransmitted_ f)) store ->
  Forall Flow.wf store /\
  TrafficGenerator.sum_sent store = 0 /\ TrafficGenerator.sum_dropped store = 0.
Proof.
  induction 1 as [| f store (Hs & Hd & Hb) _ (IHw & IHs & IHd)].
  - split; [constructor | split; reflexivity].
  - cbn [TrafficGenerator.sum_sent TrafficGenerator.sum_dropped fold_right].
    fold (TrafficGenerator.sum_sent store). fold (TrafficGenerator.sum_dropped store).
    split; [| lia]. constructor; [| exact IHw].
    unfold Flow.wf. rewrite Hs, Hd. unfold u64 in *. rewrite two64_eq in *. lia.
Qed.

(** X15. Drop accounting with several producers. For flows that have sent
    nothing yet and a new queue, with the producers' turns and the
    consumer's [tryDequeue] calls in any order and fewer than [2^64] of
    them: the drops recorded by the flows add up to the drops counted by the
    queue, and the packets buffered and those dropped together are at most
    the packets sent, which are at most the number of turns. *)
Theorem producers_drop_accounting (store : list Flow.t) (maxSize : Z)
  (es : list TrafficGenerator.shared_event) :
  u64 maxSize ->
  Forall (fun f => Flow.packetsSent_ f = 0 /\ Flow.packetsDropped_ f = 0 /\
                   u64 (Flow.bytesTransmitted_ f)) store ->
  Z.of_nat (length es) < two64 ->
  let s := TrafficGenerator.simulate_shared es
             (store, PacketQueue.PacketQueue maxSize) in
  TrafficGenerator.sum_dropped (fst s) = PacketQueue.getTotalDropped (snd s) /\
  0 <= PacketQueue.size (snd s) /\
  PacketQueue.size (snd s) + TrafficGenerator.sum_dropped (fst s)
    <= TrafficGenerator.sum_sent (fst s) /\
  TrafficGenerator.sum_sent (fst s) <= Z.of_nat (length es) /\
  length (fst s) = length store.
Proof.
  intros Hmax Hfresh Hlen s.
  destruct (fresh_sums store Hfresh) as (Hwf & Hs0 & Hd0).
  assert (Hacc0 : TrafficGenerator.accounted_shared store
                    (PacketQueue.PacketQueue maxSize)).
  { split; [exact Hwf |].
    split; [apply PacketQueueFacts.new_queue_inv; exact Hmax |].
    rewrite Hs0, Hd0. cbn. lia. }
  destruct (simulate_shared_accounted es store _ Hacc0) as (Hacc & Hl & Hs); [lia |].
  fold s in Hacc, Hl, Hs.
  destruct Hacc as (_ & _ & Hdrop & Hsize0 & Hsum).
  unfold PacketQueue.getTotalDropped, PacketQueue.size.
  repeat split; try lia; exact Hl.
Qed.

(** An instance: two flows on a queue of bound 1: three packets sent, two
    of them dropped, one by each flow. *)
Lemma producers_drop_accounting_witness :
  let store := [Flow.Flow 1 Flow.CONSTANT_RATE 409600 MEDIUM;
                Flow.Flow 2 Flow.BURSTY 409600 HIGH] in
  let es := [TrafficGenerator.GenerateAt 0 100 1;
             TrafficGenerator.GenerateAt 1 200 2;
             TrafficGenerator.GenerateAt 0 300 3] in
  let s := TrafficGenerator.simulate_shared es (store, PacketQueue.PacketQueue 1) in
  map Flow.packetsDropped_ (fst s) = [1; 1] /\
  PacketQueue.getTotalDropped (snd s) = 2.
Proof.
  intros store es s.
  assert (Hmax : u64 1) by (unfold u64; rewrite two64_eq; lia).
  assert (Hfresh : Forall (fun f => Flow.packetsSent_ f = 0 /\
                                    Flow.packetsDropped_ f = 0 /\
                                    u64 (Flow.bytesTransmitted_ f)) store).
  { repeat (apply Forall_cons;
            [split; [reflexivity | split; [reflexivity |
               unfold u64; rewrite two64_eq; cbn; lia]] |]).
    apply Forall_nil. }
  assert (Hlen : Z.of_nat (length es) < two64) by (rewrite two64_eq; cbn; lia).
  destruct (producers_drop_accounting store 1 es Hmax Hfresh Hlen) as (Hdrop & _).
  split; [reflexivity |].
  etransitivity; [symmetry; exact Hdrop | reflexivity].
Defined.

End PipelineLaws.
